(** * heap_utils: binary-heap helpers over a vector, and their specification

    The library (include/heap_utils/heap_utils.hpp) is a thin layer over the
    heap algorithms of the C++ standard library: [heapify] calls
    [std::make_heap], [heap_push] calls [std::push_heap] after [push_back],
    [heap_pop] calls [std::pop_heap] before [pop_back], [is_heap] calls
    [std::is_heap], and [top_k] composes [heapify] with [heap_pop].

    The development has two layers.
    - Module [std] embeds the standard algorithms as GNU libstdc++ implements
      them (bits/stl_heap.h): [__push_heap], [__adjust_heap], [__pop_heap],
      [__make_heap] and [__is_heap_until], hole-based loops over an indexed
      range.  A [std::vector<T>] is a [list T]; iterators are indices from
      [begin()]; moves are copies (a moved-from slot is always overwritten
      before it is read again).
    - Module [heap_utils] embeds the functions of the header on top of it.
      The one exception the header throws, [std::runtime_error], is the left
      summand of a result; an operation that mutates the vector returns the
      vector it leaves behind. *)

From Stdlib Require Import ZArith String Lia ZifyNat.
From stdpp Require Import base list sorting.

Local Open Scope nat_scope.

(** ** Comparators *)

(** The standard's requirement on [Compare]: a strict weak ordering.
    [comp a b] reads "a is ordered before b"; with [std::less] the heap is a
    max-heap. *)
Definition equiv_under {T} (comp : T → T → bool) (a b : T) : Prop :=
  comp a b = false ∧ comp b a = false.

Record StrictWeakOrder {T} (comp : T → T → bool) : Prop := {
  swo_irrefl : ∀ a, comp a a = false;
  swo_trans : ∀ a b c, comp a b = true → comp b c = true → comp a c = true;
  swo_equiv_trans : ∀ a b c,
    equiv_under comp a b → equiv_under comp b c → equiv_under comp a c
}.

(** A strict total order: moreover, elements that are equivalent are equal
    (as for [<] on integers). *)
Record StrictTotalOrder {T} (comp : T → T → bool) : Prop := {
  sto_swo : StrictWeakOrder comp;
  sto_eq : ∀ a b, comp a b = false → comp b a = false → a = b
}.

(** [std::greater] against [std::less]: the arguments are exchanged. *)
Definition inverted {T} (comp : T → T → bool) : T → T → bool :=
  λ a b, comp b a.

(** ** The standard heap algorithms (libstdc++, bits/stl_heap.h) *)

Module std.
Section algorithms.
Context {T : Type}.
Implicit Types (comp : T → T → bool) (first : list T) (value : T).

(** [(__len & 1) == 0] *)
Definition low_bit_clear (n : nat) : bool := Nat.land n 1 =? 0.

(** The [while] loop of [__push_heap]: the hole climbs while its parent is
    ordered before [value].  The recursion is on [fuel]; [__push_heap]
    supplies [holeIndex], which bounds the number of iterations.  The
    result is the range and the hole at loop exit. *)
Fixpoint push_heap_loop (fuel : nat) comp first (holeIndex topIndex : nat)
    value : list T * nat :=
  match fuel with
  | 0 => (first, holeIndex)
  | S fuel' =>
      let parent := (holeIndex - 1) / 2 in
      if topIndex <? holeIndex then
        match first !! parent with
        | Some p =>
            if comp p value
            then push_heap_loop fuel' comp (<[holeIndex := p]> first)
                   parent topIndex value
            else (first, holeIndex)
        | None => (first, holeIndex)
        end
      else (first, holeIndex)
  end.

Definition __push_heap comp first (holeIndex topIndex : nat) value
    : list T :=
  let '(first, holeIndex) :=
    push_heap_loop holeIndex comp first holeIndex topIndex value in
  <[holeIndex := value]> first.

(** [std::push_heap(first, last, comp)] over the whole vector. *)
Definition push_heap comp first : list T :=
  let last := length first in
  match first !! (last - 1) with
  | Some value => __push_heap comp first (last - 1) 0 value
  | None => first
  end.

(** The [while] loop of [__adjust_heap]: the hole descends to the child
    that is not ordered before its sibling, as long as there are two
    children.  The result is the range, [__holeIndex] and
    [__secondChild] at loop exit. *)
Fixpoint adjust_heap_loop (fuel : nat) comp first
    (holeIndex secondChild len : nat) : list T * nat * nat :=
  match fuel with
  | 0 => (first, holeIndex, secondChild)
  | S fuel' =>
      if secondChild <? (len - 1) / 2 then
        let secondChild := 2 * (secondChild + 1) in
        match first !! secondChild, first !! (secondChild - 1) with
        | Some r, Some l =>
            let '(secondChild, x) :=
              if comp r l then (secondChild - 1, l) else (secondChild, r) in
            adjust_heap_loop fuel' comp (<[holeIndex := x]> first)
              secondChild secondChild len
        | _, _ => (first, holeIndex, secondChild)
        end
      else (first, holeIndex, secondChild)
  end.

Definition __adjust_heap comp first (holeIndex len : nat) value : list T :=
  let topIndex := holeIndex in
  let '(first, holeIndex, secondChild) :=
    adjust_heap_loop len comp first holeIndex holeIndex len in
  let '(first, holeIndex) :=
    if low_bit_clear len && (secondChild =? (len - 2) / 2) then
      let secondChild := 2 * (secondChild + 1) in
      match first !! (secondChild - 1) with
      | Some x => (<[holeIndex := x]> first, secondChild - 1)
      | None => (first, holeIndex)
      end
    else (first, holeIndex) in
  __push_heap comp first holeIndex topIndex value.

(** [__pop_heap(first, last, result, comp)], with [first = begin()]. *)
Definition __pop_heap comp first (last result : nat) : list T :=
  match first !! result, first !! 0 with
  | Some value, Some top =>
      __adjust_heap comp (<[result := top]> first) 0 last value
  | _, _ => first
  end.

Definition pop_heap comp first : list T :=
  let last := length first in
  if 1 <? last then
    let last := last - 1 in
    __pop_heap comp first last last
  else first.

(** The [while (true)] loop of [__make_heap], from the last parent down to
    the root. *)
Fixpoint make_heap_loop comp first (parent len : nat) : list T :=
  let first :=
    match first !! parent with
    | Some value => __adjust_heap comp first parent len value
    | None => first
    end in
  match parent with
  | 0 => first
  | S parent' => make_heap_loop comp first parent' len
  end.

Definition make_heap comp first : list T :=
  let len := length first in
  if len <? 2 then first
  else make_heap_loop comp first ((len - 2) / 2) len.

(** The [for] loop of [__is_heap_until]. *)
Fixpoint is_heap_until_loop (fuel : nat) comp first (parent child n : nat)
    : nat :=
  match fuel with
  | 0 => n
  | S fuel' =>
      if child <? n then
        match first !! parent, first !! child with
        | Some p, Some c =>
            if comp p c then child
            else is_heap_until_loop fuel' comp first
                   (if low_bit_clear child then parent + 1 else parent)
                   (child + 1) n
        | _, _ => n
        end
      else n
  end.

Definition __is_heap_until comp first (n : nat) : nat :=
  is_heap_until_loop n comp first 0 1 n.

Definition is_heap comp first : bool :=
  __is_heap_until comp first (length first) =? length first.

End algorithms.
End std.

(** ** The header: namespace heap_utils *)

Module heap_utils.

(** [std::runtime_error], with its [what()] string. *)
Inductive runtime_error : Type := RuntimeError (what : string).

(** The operators [<] and [>] of the element type, which [std::less<>] and
    [std::greater<>] call. *)
Class Ordered (T : Type) := {
  less : T → T → bool;
  greater : T → T → bool
}.

#[export] Instance Z_Ordered : Ordered Z :=
  {| less := Z.ltb; greater := Z.gtb |}.

Section operations.
Context {T : Type}.
Implicit Types (comp : T → T → bool) (data : list T) (value : T).

(** [heapify(begin, end, comp)] and [is_heap(begin, end, comp)] take a range;
    every call in the repository passes [begin()] and [end()] of a vector, so
    the range is the whole vector. *)
Definition heapify comp data : list T := std.make_heap comp data.

(** Both overloads (copy and move) append and restore the heap. *)
Definition heap_push comp data value : list T :=
  let data := data ++ [value] in
  std.push_heap comp data.

Definition heap_top data : runtime_error + T :=
  match data with
  | [] => inl (RuntimeError "heap_utils: heap_top() on empty heap")
  | front :: _ => inr front
  end.

(** The result is the thrown error or the popped element, and the vector
    the call leaves behind.  [back()] needs a non-empty vector: the last
    branch stands for a call of it on an empty one, which never happens
    since [std::pop_heap] keeps the size (lemma [heap_pop_nonempty]). *)
Definition heap_pop comp data : (runtime_error + T) * list T :=
  match data with
  | [] => (inl (RuntimeError "heap_utils: heap_pop() on empty heap"), data)
  | _ :: _ =>
      let data := std.pop_heap comp data in
      match last data with
      | Some out => (inr out, removelast data)
      | None => (inl (RuntimeError "back() on empty vector"), data)
      end
  end.

Definition is_heap comp data : bool := std.is_heap comp data.

(** The [for] loop of [top_k]: [kk] pops, each pushed to [out]; an
    exception from [heap_pop] leaves the function. *)
Fixpoint top_k_loop (kk : nat) comp data (out : list T)
    : (runtime_error + list T) * list T :=
  match kk with
  | 0 => (inr out, data)
  | S kk' =>
      match heap_pop comp data with
      | (inr x, data) => top_k_loop kk' comp data (out ++ [x])
      | (inl e, data) => (inl e, data)
      end
  end.

(** The body of [top_k], run on its by-value parameter [data]: the result,
    and the parameter object as it is when the function returns. *)
Definition top_k_body comp (k : nat) data
    : (runtime_error + list T) * list T :=
  if (k =? 0) || (length data =? 0) then (inr [], data)
  else
    let data := heapify comp data in
    let n := length data in
    let kk := if n <? k then n else k in
    top_k_loop kk comp data [].

Definition top_k comp data (k : nat) : runtime_error + list T :=
  fst (top_k_body comp k data).

(** A call [top_k(v, k, comp)] with an lvalue [v]: the parameter is
    copy-constructed from [v], the body runs on the parameter, and the
    parameter is destroyed.  The result and [v] after the call. *)
Definition call_top_k comp (v : list T) (k : nat)
    : (runtime_error + list T) * list T :=
  let data := v in
  let '(result, _) := top_k_body comp k data in
  (result, v).

Definition largest_k `{Ordered T} data (k : nat) : runtime_error + list T :=
  top_k less data k.

Definition smallest_k `{Ordered T} data (k : nat) : runtime_error + list T :=
  top_k greater data k.

(** A call [largest_k(v, k)] with an lvalue [v]: the parameter [data] of
    [largest_k] is a copy of [v], and [top_k] receives that copy, moved.
    [smallest_k] is the same with [std::greater]. *)
Definition call_largest_k `{Ordered T} (v : list T) (k : nat)
    : (runtime_error + list T) * list T :=
  let data := v in
  (fst (call_top_k less data k), v).

Definition call_smallest_k `{Ordered T} (v : list T) (k : nat)
    : (runtime_error + list T) * list T :=
  let data := v in
  (fst (call_top_k greater data k), v).

(** A caller's drain loop, [while (!h.empty()) out.push_back(heap_pop(h))]
    (examples/max_heap_example.cpp): the elements popped and the vector
    left.  Each pop shortens the vector, so [length data] iterations
    suffice. *)
Fixpoint pop_loop (fuel : nat) comp data (out : list T)
    : list T * list T :=
  match fuel with
  | 0 => (out, data)
  | S fuel' =>
      match data with
      | [] => (out, data)
      | _ :: _ =>
          match heap_pop comp data with
          | (inr x, data) => pop_loop fuel' comp data (out ++ [x])
          | (inl _, data) => (out, data)
          end
      end
  end.

Definition pop_until_empty comp data : list T * list T :=
  pop_loop (length data) comp data [].

End operations.
End heap_utils.

Import heap_utils.

(** ** The heap invariant (spec, data model) *)

(** [edge p c]: position [c] is a child of position [p]. *)
Definition edge (p c : nat) : Prop := c = 2 * p + 1 ∨ c = 2 * p + 2.

(** [desc p h]: position [h] lies in the subtree rooted at [p]. *)
Inductive desc (p : nat) : nat → Prop :=
  | desc_refl : desc p p
  | desc_step h c : desc p h → edge h c → desc p c.

Section invariant.
Context {T : Type} (comp : T → T → bool).

(** The parent at [j] is not ordered before the child at [i]. *)
Definition ok (l : list T) (j i : nat) : Prop :=
  ∀ x y, l !! j = Some x → l !! i = Some y → comp x y = false.

(** The invariant restricted to the parents from [p] on and the children
    below [len]: what [__make_heap] has established after the parents
    above [p - 1]. *)
Definition heap_from (p len : nat) (l : list T) : Prop :=
  ∀ j i, edge j i → p ≤ j → i < len → ok l j i.

(** For every non-root position, [comp parent child] is false. *)
Definition heap_inv (l : list T) : Prop := heap_from 0 (length l) l.

(** The invariant of the descent in [__adjust_heap], with the hole at
    [h]: every edge below the top [p] holds, and so do the edges from [p]
    once the hole has left it. *)
Definition descent_inv (p len : nat) (l : list T) (h : nat) : Prop :=
  ∀ j i, edge j i → p ≤ j → i < len → (j = p → h ≠ p) → ok l j i.

(** The state of [__adjust_heap] on a heap [l], with the hole at [h]: on
    the path from the top [p] to the hole every slot holds what [l] has
    one step further down, and off the path nothing has changed. *)
Definition restoring (p : nat) (l l' : list T) (h : nat) : Prop :=
  (∀ i, desc p i → desc i h → i ≠ p → l' !! ((i - 1) / 2) = l !! i) ∧
  (∀ i, i ≠ h → ¬ (desc p i ∧ desc i h) → l' !! i = l !! i).

(** Best-to-worst: no element is ordered before a later one. *)
Definition not_before (a b : T) : Prop := comp a b = false.

Definition sorted_best_first (l : list T) : Prop :=
  StronglySorted not_before l.

#[global] Instance not_before_dec a b : Decision (not_before a b).
Proof. unfold not_before; apply _. Defined.

(** A reference full sort of the elements, best first: the library merge
    sort on "is not ordered before". *)
Definition reference_sort (l : list T) : list T := merge_sort not_before l.

End invariant.

(** [k] consecutive applications of Pop (spec, top-k): the elements in pop
    order, or the error of the first pop that fails. *)
Fixpoint pop_n {T} (k : nat) (comp : T → T → bool) (data : list T)
    : runtime_error + list T :=
  match k with
  | 0 => inr []
  | S k' =>
      match heap_pop comp data with
      | (inr x, data) =>
          match pop_n k' comp data with
          | inr out => inr (x :: out)
          | inl e => inl e
          end
      | (inl e, _) => inl e
      end
  end.

(** Filling a heap one push at a time from the empty vector, as [main] of
    examples/max_heap_example.cpp does before it drains the heap. *)
Definition push_all {T} (comp : T → T → bool) (values : list T) : list T :=
  foldl (λ heap value, heap_push comp heap value) [] values.

(** A comparator on pairs that looks at the first component only: a strict
    weak ordering under which distinct elements can be equivalent. *)
Definition by_first (a b : Z * Z) : bool := (fst a <? fst b)%Z.

(** ** Arithmetic of positions *)

Ltac Zify.zify_post_hook ::= Z.to_euclidean_division_equations.

#[local] Arguments Nat.div : simpl never.
#[local] Arguments Nat.modulo : simpl never.
#[local] Arguments Nat.land : simpl never.
#[local] Arguments Nat.mul : simpl never.

Lemma low_bit_clear_true n : std.low_bit_clear n = true ↔ n mod 2 = 0.
Proof.
  unfold std.low_bit_clear. change 1 with (Nat.ones 1) at 1.
  rewrite Nat.land_ones, Nat.pow_1_r. apply Nat.eqb_eq.
Qed.

Lemma edge_parent j i : edge j i → (i - 1) / 2 = j ∧ j < i.
Proof. unfold edge. lia. Qed.

Lemma parent_edge i : 0 < i → edge ((i - 1) / 2) i.
Proof. unfold edge. lia. Qed.

Lemma desc_ge p h : desc p h → p ≤ h.
Proof. induction 1 as [|h c _ IH He]; [lia|]. apply edge_parent in He. lia. Qed.

Lemma desc_parent p h :
  desc p h → h ≠ p → desc p ((h - 1) / 2) ∧ edge ((h - 1) / 2) h.
Proof.
  destruct 1 as [|h c Hd He]; [done|]. intros _.
  pose proof (edge_parent _ _ He) as [-> _]. done.
Qed.

Lemma desc_root h : desc 0 h.
Proof.
  induction h as [h IH] using lt_wf_ind.
  destruct (decide (h = 0)) as [->|Hne]; [constructor|].
  apply desc_step with ((h - 1) / 2); [apply IH; lia|apply parent_edge; lia].
Qed.

(** ** Strict weak orderings *)

Section order.
Context {T : Type} {comp : T → T → bool} (valid : StrictWeakOrder comp).

Lemma swo_asym a b : comp a b = true → comp b a = false.
Proof.
  intros Hab. destruct (comp b a) eqn:Hba; [|done].
  pose proof (swo_trans comp valid a b a Hab Hba) as Haa.
  by rewrite (swo_irrefl comp valid a) in Haa.
Qed.

(** Negative transitivity: "not before" is transitive. *)
Lemma swo_neg_trans a b c :
  comp a b = false → comp b c = false → comp a c = false.
Proof.
  intros Hab Hbc. destruct (comp a c) eqn:Hac; [|done].
  destruct (comp b a) eqn:Hba.
  { pose proof (swo_trans comp valid b a c Hba Hac). congruence. }
  destruct (comp c b) eqn:Hcb.
  { pose proof (swo_trans comp valid a c b Hac Hcb). congruence. }
  destruct (swo_equiv_trans comp valid a b c) as [E _]; [done..|congruence].
Qed.

Lemma swo_before_not a b c :
  comp a b = true → comp a c = false → comp b c = false.
Proof.
  intros Hab Hac. destruct (comp b c) eqn:Hbc; [|done].
  pose proof (swo_trans comp valid a b c Hab Hbc). congruence.
Qed.

Lemma inverted_valid : StrictWeakOrder (inverted comp).
Proof.
  unfold inverted. split.
  - intros a. apply (swo_irrefl comp valid).
  - intros a b c Hab Hbc. by apply (swo_trans comp valid c b a).
  - intros a b c [H1 H2] [H3 H4].
    destruct (swo_equiv_trans comp valid a b c) as [E1 E2]; [done..|].
    by split.
Qed.

Lemma not_before_trans : Transitive (not_before comp).
Proof. intros a b c. apply swo_neg_trans. Qed.

Lemma not_before_total : Total (not_before comp).
Proof.
  intros a b. unfold not_before.
  destruct (comp a b) eqn:Hab; [right; by apply swo_asym|by left].
Qed.

End order.

(** ** Lengths: no algorithm changes the size of the range *)

Section lengths.
Context {T : Type} (comp : T → T → bool).
Implicit Types (l : list T) (v : T).

Lemma push_heap_loop_length fuel l h p v :
  length (std.push_heap_loop fuel comp l h p v).1 = length l.
Proof.
  revert l h. induction fuel as [|fuel IH]; intros l h; simpl; [done|].
  destruct (p <? h); simpl; [|done].
  destruct (l !! ((h - 1) / 2)) as [x|]; simpl; [|done].
  destruct (comp x v); simpl; [|done].
  by rewrite IH, length_insert.
Qed.

Lemma __push_heap_length l h p v :
  length (std.__push_heap comp l h p v) = length l.
Proof.
  unfold std.__push_heap.
  pose proof (push_heap_loop_length h l h p v) as Hl.
  destruct (std.push_heap_loop h comp l h p v) as [l' h'].
  by rewrite length_insert.
Qed.

Lemma push_heap_length l : length (std.push_heap comp l) = length l.
Proof.
  unfold std.push_heap. destruct (l !! _); [|done].
  apply __push_heap_length.
Qed.

Lemma adjust_heap_loop_length fuel l h sc len :
  length (std.adjust_heap_loop fuel comp l h sc len).1.1 = length l.
Proof.
  revert l h sc. induction fuel as [|fuel IH]; intros l h sc; simpl; [done|].
  destruct (sc <? (len - 1) / 2); simpl; [|done].
  destruct (l !! _) as [r|]; simpl; [|done].
  destruct (l !! _) as [x|]; simpl; [|done].
  destruct (comp r x); by rewrite IH, length_insert.
Qed.

Lemma __adjust_heap_length l h len v :
  length (std.__adjust_heap comp l h len v) = length l.
Proof.
  unfold std.__adjust_heap.
  pose proof (adjust_heap_loop_length len l h h len) as Hl.
  destruct (std.adjust_heap_loop len comp l h h len) as [[l1 h1] sc1].
  simpl in Hl.
  destruct (_ && _).
  - destruct (l1 !! _);
      by rewrite __push_heap_length, ?length_insert.
  - by rewrite __push_heap_length.
Qed.

Lemma pop_heap_length l : length (std.pop_heap comp l) = length l.
Proof.
  unfold std.pop_heap, std.__pop_heap.
  destruct (1 <? length l); [|done].
  destruct (l !! _); [|done]. destruct (l !! 0); [|done].
  by rewrite __adjust_heap_length, length_insert.
Qed.

Lemma make_heap_loop_length parent l len :
  length (std.make_heap_loop comp l parent len) = length l.
Proof.
  revert l. induction parent as [|parent IH]; intros l; simpl.
  - destruct (l !! 0); [apply __adjust_heap_length|done].
  - rewrite IH. destruct (l !! _); [apply __adjust_heap_length|done].
Qed.

Lemma make_heap_length l : length (std.make_heap comp l) = length l.
Proof.
  unfold std.make_heap. destruct (_ <? 2); [done|].
  apply make_heap_loop_length.
Qed.

End lengths.

(** ** Correctness of the standard algorithms under a valid comparator *)

Section correctness.
Context {T : Type} {comp : T → T → bool} (valid : StrictWeakOrder comp).
Implicit Types (l : list T) (v : T).

(** Plugging the hole with a value that its parent is not ordered before
    and that is not ordered before its children. *)
Lemma plug_hole p len l h v :
  h < len → len ≤ length l → desc p h →
  heap_from comp p len l →
  (∀ c y, edge h c → c < len → l !! c = Some y → comp v y = false) →
  (h ≠ p → ∀ x, l !! ((h - 1) / 2) = Some x → comp x v = false) →
  heap_from comp p len (<[h := v]> l).
Proof.
  intros Hh Hlen Hd Hheap Hch Hpar j i He Hj Hi a b Ha Hb.
  pose proof (edge_parent _ _ He) as [Hji Hlt].
  apply list_lookup_insert_Some in Ha as [(<- & <- & _)|[Hne Ha]];
    apply list_lookup_insert_Some in Hb as [(E & <- & _)|[Hne' Hb]].
  - lia.
  - by apply (Hch i).
  - subst i. apply Hpar; [lia|]. by rewrite Hji.
  - by apply (Hheap j i).
Qed.

(** The loop of [__push_heap], followed by the final store. *)
Lemma push_heap_loop_spec p len v fuel : ∀ l h,
  h ≤ fuel → h < len → len ≤ length l → desc p h →
  heap_from comp p len l →
  (∀ c y, edge h c → c < len → l !! c = Some y → comp v y = false) →
  let r := std.push_heap_loop fuel comp l h p v in
  let l' := <[r.2 := v]> r.1 in
  heap_from comp p len l' ∧ l' ≡ₚ <[h := v]> l ∧
  (∀ i, len ≤ i → l' !! i = l !! i).
Proof.
  induction fuel as [|fuel IH]; intros l h Hfuel Hh Hlen Hd Hheap Hch; simpl.
  { split_and!; [|done|intros i Hi; apply list_lookup_insert_ne; lia].
    apply plug_hole; try done. pose proof (desc_ge _ _ Hd). lia. }
  pose proof (desc_ge _ _ Hd) as Hph.
  destruct (p <? h) eqn:Hlt; simpl.
  2:{ apply Nat.ltb_ge in Hlt.
      split_and!; [|done|intros i Hi; apply list_lookup_insert_ne; lia].
      apply plug_hole; try done. lia. }
  apply Nat.ltb_lt in Hlt.
  destruct (desc_parent p h Hd) as [Hdp Hep]; [lia|].
  pose proof (edge_parent _ _ Hep) as [_ Hparlt].
  set (par := (h - 1) / 2) in *.
  destruct (l !! par) as [x|] eqn:Hx; simpl.
  2:{ split_and!; [|done|intros i Hi; apply list_lookup_insert_ne; lia].
      apply plug_hole; try done. intros _ y Hy. unfold par in *. congruence. }
  destruct (comp x v) eqn:Hxv; simpl.
  2:{ split_and!; [|done|intros i Hi; apply list_lookup_insert_ne; lia].
      apply plug_hole; try done. intros _ y Hy. unfold par in *. congruence. }
  destruct (lookup_lt_is_Some_2 l h) as [lh Hlh]; [lia|].
  pose proof (desc_ge _ _ Hdp) as Hppar.
  destruct (IH (<[h := x]> l) par) as (H1 & H2 & H3).
  - lia.
  - lia.
  - by rewrite length_insert.
  - done.
  - intros j i He Hj Hi a b Ha Hb.
    pose proof (edge_parent _ _ He) as [Hji Hjlt].
    apply list_lookup_insert_Some in Ha as [(<- & <- & _)|[Hne Ha]];
      apply list_lookup_insert_Some in Hb as [(E & <- & _)|[Hne' Hb]].
    + lia.
    + apply (swo_neg_trans valid _ lh).
      * apply (Hheap par h); first [done|lia].
      * apply (Hheap h i); first [done|lia].
    + subst i. assert (j = par) as -> by (unfold par; lia).
      assert (a = x) as -> by congruence. apply (swo_irrefl _ valid).
    + by apply (Hheap j i).
  - intros c y He Hc Hy.
    apply list_lookup_insert_Some in Hy as [(<- & <- & _)|[Hne Hy]].
    + by apply (swo_asym valid).
    + apply (swo_before_not valid x); [done|].
      apply (Hheap par c); first [done|lia].
  - split_and!; [done| |].
    + rewrite H2. rewrite <- (list_insert_insert_eq l h x v).
      apply Permutation_insert_swap.
      * apply list_lookup_insert_eq. lia.
      * rewrite list_lookup_insert_ne by lia. done.
    + intros i Hi. rewrite H3 by done. apply list_lookup_insert_ne. lia.
Qed.

Lemma __push_heap_spec p len l h v :
  h < len → len ≤ length l → desc p h →
  heap_from comp p len l →
  (∀ c y, edge h c → c < len → l !! c = Some y → comp v y = false) →
  let l' := std.__push_heap comp l h p v in
  heap_from comp p len l' ∧ l' ≡ₚ <[h := v]> l ∧
  (∀ i, len ≤ i → l' !! i = l !! i).
Proof.
  intros Hh Hlen Hd Hheap Hch. unfold std.__push_heap.
  pose proof (push_heap_loop_spec p len v h l h) as Hspec.
  destruct (std.push_heap_loop h comp l h p v) as [l1 h1].
  by apply Hspec.
Qed.

(** [__push_heap] never reads the slot of the hole. *)
Lemma __push_heap_hole l h p v x :
  std.__push_heap comp (<[h := x]> l) h p v = std.__push_heap comp l h p v.
Proof.
  unfold std.__push_heap. destruct h as [|h]; simpl.
  { by rewrite list_insert_insert_eq. }
  destruct (p <? S h); simpl; [|by rewrite list_insert_insert_eq].
  rewrite list_lookup_insert_ne by lia.
  destruct (l !! _) as [y|]; simpl; [|by rewrite list_insert_insert_eq].
  destruct (comp y v); simpl; by rewrite list_insert_insert_eq.
Qed.

(** One move of the hole, from [h] to its child [c]. *)
Lemma descend_step p len l h c xc v :
  h < len → len ≤ length l → desc p h → edge h c → c < len →
  l !! c = Some xc →
  (∀ c' y, edge h c' → c' ≠ c → c' < len → l !! c' = Some y →
     comp xc y = false) →
  descent_inv comp p len l h →
  descent_inv comp p len (<[h := xc]> l) c ∧
  <[c := v]> (<[h := xc]> l) ≡ₚ <[h := v]> l.
Proof.
  intros Hh Hlen Hd Hec Hc Hxc Hsib Hinv.
  pose proof (edge_parent _ _ Hec) as [_ Hhc].
  pose proof (desc_ge _ _ Hd) as Hph.
  destruct (lookup_lt_is_Some_2 l h) as [lh Hlh]; [lia|].
  split.
  - intros j i He Hj Hi _ a b Ha Hb.
    pose proof (edge_parent _ _ He) as [Hji Hjlt].
    apply list_lookup_insert_Some in Ha as [(<- & <- & _)|[Hne Ha]];
      apply list_lookup_insert_Some in Hb as [(E & <- & _)|[Hne' Hb]].
    + lia.
    + destruct (decide (i = c)) as [->|Hic].
      * assert (b = xc) as -> by congruence. apply (swo_irrefl _ valid).
      * by apply (Hsib i).
    + subst i. apply (swo_neg_trans valid _ lh).
      * apply (Hinv j h); first [done|lia].
      * apply (Hinv h c); first [done|lia].
    + apply (Hinv j i); first [done|lia].
  - rewrite <- (list_insert_insert_eq l h xc v).
    apply Permutation_insert_swap.
    + apply list_lookup_insert_eq. lia.
    + rewrite list_lookup_insert_ne by lia. done.
Qed.

(** The descent loop of [__adjust_heap]. *)
Lemma adjust_heap_loop_spec p len v fuel : ∀ l h,
  len ≤ fuel + h → h < len → len ≤ length l → desc p h →
  descent_inv comp p len l h →
  ∃ l' h',
    std.adjust_heap_loop fuel comp l h h len = (l', h', h') ∧
    h' < len ∧ ¬ h' < (len - 1) / 2 ∧ desc p h' ∧
    descent_inv comp p len l' h' ∧ length l' = length l ∧
    <[h' := v]> l' ≡ₚ <[h := v]> l ∧
    (∀ i, len ≤ i → l' !! i = l !! i).
Proof.
  induction fuel as [|fuel IH]; intros l h Hfuel Hh Hlen Hd Hinv; [lia|].
  simpl. destruct (h <? (len - 1) / 2) eqn:Hlt.
  2:{ apply Nat.ltb_ge in Hlt. exists l, h. split_and!; try done. lia. }
  apply Nat.ltb_lt in Hlt.
  destruct (lookup_lt_is_Some_2 l (2 * (h + 1))) as [r Hr]; [lia|].
  destruct (lookup_lt_is_Some_2 l (2 * (h + 1) - 1)) as [x Hx]; [lia|].
  rewrite Hr, Hx.
  assert (∃ c xc, (if comp r x then (2 * (h + 1) - 1, x)
                   else (2 * (h + 1), r)) = (c, xc) ∧
            edge h c ∧ c < len ∧ l !! c = Some xc ∧
            ∀ c' y, edge h c' → c' ≠ c → c' < len → l !! c' = Some y →
              comp xc y = false) as (c & xc & -> & Hec & Hc & Hxc & Hsib).
  { destruct (comp r x) eqn:Hrx.
    - exists (2 * (h + 1) - 1), x. split_and!; try done.
      + unfold edge. lia.
      + lia.
      + intros c' y He' Hne _ Hy.
        assert (c' = 2 * (h + 1)) as -> by (unfold edge in He'; lia).
        assert (y = r) as -> by congruence. by apply (swo_asym valid).
    - exists (2 * (h + 1)), r. split_and!; try done.
      + unfold edge. lia.
      + lia.
      + intros c' y He' Hne _ Hy.
        assert (c' = 2 * (h + 1) - 1) as -> by (unfold edge in He'; lia).
        congruence. }
  pose proof (edge_parent _ _ Hec) as [_ Hhc].
  destruct (descend_step p len l h c xc v) as [Hinv' Hperm]; try done.
  destruct (IH (<[h := xc]> l) c) as (l' & h' & Hrun & ? & ? & ? & ? & Hl & Hp & Hf).
  - lia.
  - done.
  - by rewrite length_insert.
  - by apply desc_step with h.
  - done.
  - exists l', h'. split_and!; try done.
    + by rewrite Hl, length_insert.
    + by rewrite Hp.
    + intros i Hi. rewrite Hf by done. apply list_lookup_insert_ne. lia.
Qed.

(** [__adjust_heap]: the subtree at [holeIndex] becomes a heap with
    [value] in it, when the subtrees below already are. *)
Lemma __adjust_heap_spec p len l v :
  p < len → len ≤ length l →
  heap_from comp (p + 1) len l →
  let l' := std.__adjust_heap comp l p len v in
  heap_from comp p len l' ∧ l' ≡ₚ <[p := v]> l ∧
  (∀ i, len ≤ i → l' !! i = l !! i).
Proof.
  intros Hp Hlen Hheap. unfold std.__adjust_heap.
  destruct (adjust_heap_loop_spec p len v len l p)
    as (l1 & h1 & -> & Hh1 & Hstop & Hd1 & Hinv1 & Hl1 & Hp1 & Hf1);
    [lia|done|done|constructor| |].
  { intros j i He Hj Hi Hne. apply Hheap; try done.
    destruct (decide (j = p)) as [E|?]; [by destruct (Hne E)|lia]. }
  pose proof (desc_ge _ _ Hd1) as Hph1.
  destruct (std.low_bit_clear len && (h1 =? (len - 2) / 2)) eqn:Hone.
  - apply andb_true_iff in Hone as [Hev Heq].
    apply low_bit_clear_true in Hev. apply Nat.eqb_eq in Heq.
    destruct (lookup_lt_is_Some_2 l1 (2 * (h1 + 1) - 1)) as [x Hx]; [lia|].
    rewrite Hx.
    destruct (descend_step p len l1 h1 (2 * (h1 + 1) - 1) x v)
      as [Hinv2 Hp2]; try done; try lia.
    { unfold edge. lia. }
    { intros c' y He' Hne Hc' _. unfold edge in He'. lia. }
    destruct (__push_heap_spec p len (<[h1 := x]> l1) (2 * (h1 + 1) - 1) v)
      as (H1 & H2 & H3).
    + lia.
    + rewrite length_insert. lia.
    + apply desc_step with h1; [done|unfold edge; lia].
    + intros j i He Hj Hi. apply Hinv2; try done. lia.
    + intros c y He Hc _. unfold edge in He. lia.
    + split_and!; [done| |].
      * by rewrite H2, Hp2, Hp1.
      * intros i Hi. rewrite H3, list_lookup_insert_ne by lia. by apply Hf1.
  - assert (len ≤ 2 * h1 + 1) as Hleaf.
    { apply andb_false_iff in Hone as [Hev|Hne].
      - assert (len mod 2 ≠ 0) by (rewrite <- low_bit_clear_true; congruence).
        lia.
      - apply Nat.eqb_neq in Hne. lia. }
    destruct (__push_heap_spec p len l1 h1 v) as (H1 & H2 & H3).
    + done.
    + lia.
    + done.
    + intros j i He Hj Hi. apply Hinv1; try done.
      intros -> ->. unfold edge in He. lia.
    + intros c y He Hc _. unfold edge in He. lia.
    + split_and!; [done| |].
      * by rewrite H2, Hp1.
      * intros i Hi. rewrite H3 by done. by apply Hf1.
Qed.

Lemma make_heap_loop_spec len : ∀ parent l,
  length l = len → parent < len →
  heap_from comp (parent + 1) len l →
  heap_from comp 0 len (std.make_heap_loop comp l parent len) ∧
  std.make_heap_loop comp l parent len ≡ₚ l.
Proof.
  induction parent as [|parent IH]; intros l Hl Hp Hheap; simpl;
    (destruct (lookup_lt_is_Some_2 l _ ltac:(rewrite Hl; exact Hp))
      as [value Hv]); rewrite Hv;
    (destruct (__adjust_heap_spec _ len l value Hp ltac:(lia) Hheap)
      as (H1 & H2 & _)); rewrite (list_insert_id _ _ _ Hv) in H2.
  - done.
  - destruct (IH (std.__adjust_heap comp l (S parent) len value))
      as [H3 H4].
    + by rewrite __adjust_heap_length.
    + lia.
    + by rewrite Nat.add_1_r.
    + split; [done|]. by rewrite H4.
Qed.

(** [std::make_heap]: the range becomes a heap on the same elements. *)
Lemma make_heap_spec l :
  heap_inv comp (std.make_heap comp l) ∧ std.make_heap comp l ≡ₚ l.
Proof.
  unfold heap_inv. rewrite make_heap_length. unfold std.make_heap.
  destruct (length l <? 2) eqn:Hlt.
  - apply Nat.ltb_lt in Hlt. split; [|done].
    intros j i He _ Hi. unfold edge in He. lia.
  - apply Nat.ltb_ge in Hlt. apply make_heap_loop_spec; [done|lia|].
    intros j i He Hj Hi. unfold edge in He. lia.
Qed.

(** [std::push_heap]: a heap followed by one more element becomes a
    heap. *)
Lemma push_heap_spec data v :
  heap_inv comp data →
  heap_inv comp (std.push_heap comp (data ++ [v])) ∧
  std.push_heap comp (data ++ [v]) ≡ₚ data ++ [v].
Proof.
  intros Hheap. unfold heap_inv. rewrite push_heap_length.
  unfold std.push_heap. rewrite length_app. simpl.
  set (l := data ++ [v]). set (n := length data).
  assert (length l = n + 1) as Hl by (unfold l; rewrite length_app; done).
  assert (l !! (n + 1 - 1) = Some v) as Hv.
  { unfold l. rewrite lookup_app_r by lia.
    replace (n + 1 - 1 - length data) with 0 by lia. done. }
  rewrite Hv.
  destruct (lookup_lt_is_Some_2 l ((n + 1 - 1 - 1) / 2)) as [x Hx]; [lia|].
  rewrite <- (__push_heap_hole l (n + 1 - 1) 0 v x).
  destruct (__push_heap_spec 0 (n + 1) (<[n + 1 - 1 := x]> l) (n + 1 - 1) v)
    as (H1 & H2 & _).
  - lia.
  - rewrite length_insert. lia.
  - apply desc_root.
  - intros j i He _ Hi a b Ha Hb.
    pose proof (edge_parent _ _ He) as [Hji Hjlt].
    apply list_lookup_insert_Some in Ha as [(E & _)|[Hne Ha]]; [lia|].
    apply list_lookup_insert_Some in Hb as [(<- & <- & _)|[Hne' Hb]].
    + rewrite Hji in Hx. assert (a = x) as -> by congruence.
      apply (swo_irrefl _ valid).
    + unfold l in Ha, Hb. rewrite lookup_app_l in Ha, Hb by (fold n; lia).
      apply (Hheap j i); try done; fold n; lia.
  - intros c y He Hc _. unfold edge in He. lia.
  - split; [done|]. rewrite H2, list_insert_insert_eq.
    by rewrite (list_insert_id _ _ _ Hv).
Qed.

(** [std::pop_heap]: the top goes to the last position and the rest is a
    heap again. *)
Lemma pop_heap_spec l top :
  heap_inv comp l → l !! 0 = Some top →
  last (std.pop_heap comp l) = Some top ∧
  heap_inv comp (removelast (std.pop_heap comp l)) ∧
  std.pop_heap comp l ≡ₚ l.
Proof.
  intros Hheap Htop.
  pose proof (pop_heap_length comp l) as Hlen.
  revert Hlen. unfold std.pop_heap, std.__pop_heap.
  destruct (1 <? length l) eqn:Hlt.
  - apply Nat.ltb_lt in Hlt.
    destruct (lookup_lt_is_Some_2 l (length l - 1)) as [value Hv]; [lia|].
    rewrite Hv, Htop.
    set (l0 := <[length l - 1 := top]> l).
    set (l' := std.__adjust_heap comp l0 0 (length l - 1) value).
    intros Hlen.
    destruct (__adjust_heap_spec 0 (length l - 1) l0 value)
      as (H1 & H2 & H3).
    + lia.
    + unfold l0. rewrite length_insert. lia.
    + intros j i He Hj Hi a b Ha Hb.
      pose proof (edge_parent _ _ He) as [Hji Hjlt].
      unfold l0 in Ha, Hb. rewrite list_lookup_insert_ne in Ha, Hb by lia.
      apply (Hheap j i); try done; lia.
    + fold l' in H1, H2, H3. split_and!.
      * rewrite last_lookup, Hlen, H3 by lia. unfold l0.
        replace (Init.Nat.pred (length l)) with (length l - 1) by lia.
        apply list_lookup_insert_eq. lia.
      * rewrite removelast_firstn_len, Hlen.
        unfold heap_inv. rewrite length_take, Hlen.
        replace (Init.Nat.pred (length l) `min` length l)
          with (length l - 1) by lia.
        replace (Init.Nat.pred (length l)) with (length l - 1) by lia.
        intros j i He Hj Hi a b Ha Hb.
        pose proof (edge_parent _ _ He) as [Hji Hjlt].
        rewrite lookup_take_lt in Ha, Hb by lia.
        by apply (H1 j i).
      * rewrite H2. unfold l0. by apply Permutation_insert_swap.
  - apply Nat.ltb_ge in Hlt. intros _.
    destruct l as [|x [|y l]]; simplify_eq/=; [|lia].
    split_and!; [done| |done].
    intros j i _ _ Hi. simpl in Hi. lia.
Qed.

End correctness.

(** [std::is_heap] decides the heap invariant, for any comparator. *)

Section is_heap_decides.
Context {T : Type} (comp : T → T → bool).
Implicit Types (l : list T).

Lemma is_heap_until_loop_spec l n fuel : ∀ parent child,
  n ≤ length l → 1 ≤ child → parent = (child - 1) / 2 →
  n ≤ fuel + child →
  std.is_heap_until_loop fuel comp l parent child n = n ↔
  ∀ i, child ≤ i → i < n → ok comp l ((i - 1) / 2) i.
Proof.
  induction fuel as [|fuel IH]; intros parent child Hn Hc Hp Hfuel; simpl.
  { split; [|done]. intros _ i ??. lia. }
  destruct (child <? n) eqn:Hlt.
  2:{ apply Nat.ltb_ge in Hlt. split; [|done]. intros _ i ??. lia. }
  apply Nat.ltb_lt in Hlt.
  destruct (lookup_lt_is_Some_2 l parent) as [x Hx]; [lia|].
  destruct (lookup_lt_is_Some_2 l child) as [y Hy]; [lia|].
  rewrite Hx, Hy. destruct (comp x y) eqn:Hxy.
  - split; [lia|]. intros Hall.
    specialize (Hall child ltac:(lia) Hlt x y). rewrite <- Hp in Hall.
    specialize (Hall Hx Hy). congruence.
  - rewrite IH; [|done|lia| |lia].
    + split.
      * intros Hall i Hi Hin.
        destruct (decide (i = child)) as [->|Hne]; [|apply Hall; lia].
        intros a b Ha Hb. rewrite <- Hp in Ha. congruence.
      * intros Hall i Hi Hin. apply Hall; lia.
    + destruct (std.low_bit_clear child) eqn:Hev.
      * apply low_bit_clear_true in Hev. lia.
      * assert (child mod 2 ≠ 0)
          by (rewrite <- low_bit_clear_true; congruence).
        lia.
Qed.

Lemma is_heap_spec l : std.is_heap comp l = true ↔ heap_inv comp l.
Proof.
  unfold std.is_heap, std.__is_heap_until. rewrite Nat.eqb_eq.
  rewrite is_heap_until_loop_spec by (done || lia).
  unfold heap_inv, heap_from. split.
  - intros Hall j i He _ Hi.
    pose proof (edge_parent _ _ He) as [<- Hlt]. apply Hall; lia.
  - intros Hall i Hi Hin. apply Hall; [apply parent_edge|..]; lia.
Qed.

End is_heap_decides.

(** ** The loops run to completion: more fuel never changes a result *)

Section fuel.
Context {T : Type} (comp : T → T → bool).
Implicit Types (l : list T) (v : T).

Lemma push_heap_loop_fuel p v fuel1 : ∀ fuel2 l h,
  h ≤ fuel1 → h ≤ fuel2 →
  std.push_heap_loop fuel1 comp l h p v =
  std.push_heap_loop fuel2 comp l h p v.
Proof.
  induction fuel1 as [|fuel1 IH]; intros [|fuel2] l h H1 H2; simpl;
    try done.
  - assert (h = 0) as -> by lia. done.
  - assert (h = 0) as -> by lia. done.
  - destruct (p <? h) eqn:Hlt; [|done]. apply Nat.ltb_lt in Hlt.
    destruct (l !! _); [|done]. destruct (comp _ _); [|done].
    apply IH; lia.
Qed.

Lemma adjust_heap_loop_fuel len fuel1 : ∀ fuel2 l h sc,
  len ≤ fuel1 + sc → len ≤ fuel2 + sc →
  std.adjust_heap_loop fuel1 comp l h sc len =
  std.adjust_heap_loop fuel2 comp l h sc len.
Proof.
  induction fuel1 as [|fuel1 IH]; intros [|fuel2] l h sc H1 H2; simpl;
    try done.
  - destruct (sc <? _) eqn:Hlt; [|done]. apply Nat.ltb_lt in Hlt. lia.
  - destruct (sc <? _) eqn:Hlt; [|done]. apply Nat.ltb_lt in Hlt. lia.
  - destruct (sc <? _) eqn:Hlt; [|done]. apply Nat.ltb_lt in Hlt.
    destruct (l !! _); [|done]. destruct (l !! _); [|done].
    destruct (comp _ _); apply IH; lia.
Qed.

Lemma is_heap_until_loop_fuel l n fuel1 : ∀ fuel2 parent child,
  n ≤ fuel1 + child → n ≤ fuel2 + child →
  std.is_heap_until_loop fuel1 comp l parent child n =
  std.is_heap_until_loop fuel2 comp l parent child n.
Proof.
  induction fuel1 as [|fuel1 IH]; intros [|fuel2] parent child H1 H2; simpl;
    try done.
  - destruct (child <? n) eqn:Hlt; [|done]. apply Nat.ltb_lt in Hlt. lia.
  - destruct (child <? n) eqn:Hlt; [|done]. apply Nat.ltb_lt in Hlt. lia.
  - destruct (child <? n) eqn:Hlt; [|done].
    destruct (l !! _); [|done]. destruct (l !! _); [|done].
    destruct (comp _ _); [done|]. apply IH; lia.
Qed.

End fuel.

(** ** The header's operations, for any comparator *)

Section api_any_comparator.
Context {T : Type} (comp : T → T → bool).
Implicit Types (data out : list T).

Lemma heap_pop_nonempty data :
  data ≠ [] →
  ∃ x, heap_pop comp data = (inr x, removelast (std.pop_heap comp data)) ∧
       last (std.pop_heap comp data) = Some x ∧
       length (removelast (std.pop_heap comp data)) = length data - 1.
Proof.
  intros Hne. pose proof (pop_heap_length comp data) as Hlen.
  assert (length (removelast (std.pop_heap comp data)) = length data - 1)
    as Hlen'.
  { rewrite removelast_firstn_len, length_take. lia. }
  destruct data as [|a t]; [done|]. unfold heap_pop.
  destruct (last (std.pop_heap comp (a :: t))) as [x|] eqn:E; [by eauto|].
  apply last_None in E. rewrite E in Hlen. done.
Qed.

Lemma pop_n_ok kk : ∀ data,
  kk ≤ length data →
  ∃ out, pop_n kk comp data = inr out ∧ length out = kk.
Proof.
  induction kk as [|kk IH]; intros data Hk; simpl; [by eauto|].
  destruct (heap_pop_nonempty data) as (x & -> & _ & Hlen).
  { intros ->. simpl in Hk. lia. }
  destruct (IH (removelast (std.pop_heap comp data))) as (out & -> & Hout);
    [lia|].
  exists (x :: out). by rewrite <- Hout.
Qed.

(** The loop of [top_k] performs [kk] consecutive pops and appends what
    they return. *)
Lemma top_k_loop_pop_n kk : ∀ data out,
  (top_k_loop kk comp data out).1 =
  match pop_n kk comp data with
  | inr s => inr (out ++ s)
  | inl e => inl e
  end.
Proof.
  induction kk as [|kk IH]; intros data out; simpl.
  { by rewrite app_nil_r. }
  destruct (heap_pop comp data) as [[e|x] data']; simpl; [done|].
  rewrite IH. destruct (pop_n kk comp data'); [done|].
  by rewrite <- app_assoc.
Qed.

Lemma top_k_loop_length kk : ∀ data out,
  kk ≤ length data →
  length (top_k_loop kk comp data out).2 = length data - kk.
Proof.
  induction kk as [|kk IH]; intros data out Hk; simpl; [lia|].
  destruct (heap_pop_nonempty data) as (x & -> & _ & Hlen).
  { intros ->. simpl in Hk. lia. }
  rewrite IH; lia.
Qed.

Lemma top_k_unfold data k :
  top_k comp data k =
  if (k =? 0) || (length data =? 0) then inr []
  else pop_n (k `min` length data) comp (heapify comp data).
Proof.
  unfold top_k, top_k_body. destruct (_ || _) eqn:Hguard; [done|].
  rewrite top_k_loop_pop_n. unfold heapify at 1 2.
  rewrite make_heap_length.
  replace (if length data <? k then length data else k)
    with (k `min` length data).
  2:{ destruct (length data <? k) eqn:Hlt;
        [apply Nat.ltb_lt in Hlt|apply Nat.ltb_ge in Hlt]; lia. }
  fold (heapify comp data). by destruct (pop_n _ _ _).
Qed.

Lemma top_k_ok data k :
  ∃ out, top_k comp data k = inr out ∧
         length out = if (k =? 0) || (length data =? 0) then 0
                      else k `min` length data.
Proof.
  rewrite top_k_unfold. destruct (_ || _); [by eauto|].
  apply pop_n_ok. unfold heapify. rewrite make_heap_length. lia.
Qed.

Lemma pop_loop_fuel fuel1 : ∀ fuel2 data out,
  length data ≤ fuel1 → length data ≤ fuel2 →
  pop_loop fuel1 comp data out = pop_loop fuel2 comp data out.
Proof.
  induction fuel1 as [|fuel1 IH]; intros [|fuel2] data out H1 H2; simpl;
    try done.
  - destruct data; [done|simpl in H1; lia].
  - destruct data; [done|simpl in H2; lia].
  - destruct data as [|a t]; [done|].
    destruct (heap_pop_nonempty (a :: t)) as (x & -> & _ & Hlen); [done|].
    apply IH; simpl in *; lia.
Qed.

End api_any_comparator.

(** ** The header's operations under a valid comparator *)

Section api.
Context {T : Type} {comp : T → T → bool} (valid : StrictWeakOrder comp).
Implicit Types (data out : list T).

Lemma heapify_spec data :
  heap_inv comp (heapify comp data) ∧ heapify comp data ≡ₚ data.
Proof. by apply make_heap_spec. Qed.

Lemma heap_push_spec data value :
  heap_inv comp data →
  heap_inv comp (heap_push comp data value) ∧
  heap_push comp data value ≡ₚ value :: data.
Proof.
  intros Hheap. destruct (push_heap_spec valid data value Hheap) as [H1 H2].
  split; [done|]. unfold heap_push. rewrite H2.
  by rewrite Permutation_app_comm.
Qed.

Lemma heap_pop_spec data top :
  heap_inv comp data → data !! 0 = Some top →
  ∃ data', heap_pop comp data = (inr top, data') ∧
           heap_inv comp data' ∧ data ≡ₚ top :: data' ∧
           length data' = length data - 1.
Proof.
  intros Hheap Htop.
  destruct (pop_heap_spec valid data top Hheap Htop) as (Hlast & Hh & Hp).
  destruct (heap_pop_nonempty comp data) as (x & Hrun & Hx & Hlen).
  { by intros ->. }
  exists (removelast (std.pop_heap comp data)).
  assert (x = top) as -> by congruence.
  split_and!; try done.
  apply last_Some in Hlast as [l' Hl']. rewrite Hl' in Hp |- *.
  rewrite removelast_last, <- Hp. by rewrite Permutation_app_comm.
Qed.

(** In a heap no element is ordered after the first: nothing is better
    than the top. *)
Lemma heap_top_best data top :
  heap_inv comp data → data !! 0 = Some top →
  ∀ y, y ∈ data → comp top y = false.
Proof.
  intros Hheap Htop y [i Hy]%list_elem_of_lookup. revert y Hy.
  induction i as [i IH] using lt_wf_ind. intros y Hy.
  destruct (decide (i = 0)) as [->|Hne].
  { assert (y = top) as -> by congruence. apply (swo_irrefl _ valid). }
  pose proof (lookup_lt_Some _ _ _ Hy) as Hi.
  destruct (lookup_lt_is_Some_2 data ((i - 1) / 2)) as [z Hz]; [lia|].
  apply (swo_neg_trans valid _ z).
  - apply (IH ((i - 1) / 2)); [lia|done].
  - apply (Hheap ((i - 1) / 2) i); [apply parent_edge; lia|lia|done..].
Qed.

(** Draining a heap: everything comes out, best first. *)
Lemma pop_loop_spec fuel : ∀ data out,
  heap_inv comp data → length data ≤ fuel →
  ∃ s, pop_loop fuel comp data out = (out ++ s, []) ∧
       s ≡ₚ data ∧ sorted_best_first comp s.
Proof.
  induction fuel as [|fuel IH]; intros data out Hheap Hfuel; simpl.
  { destruct data; [|simpl in Hfuel; lia].
    exists []. rewrite app_nil_r. split_and!; [done..|constructor]. }
  destruct data as [|a t].
  { exists []. rewrite app_nil_r. split_and!; [done..|constructor]. }
  destruct (heap_pop_spec (a :: t) a Hheap)
    as (data' & -> & Hh' & Hp' & Hl'); [done|].
  destruct (IH data' (out ++ [a]) Hh') as (s & -> & Hs & Hsorted).
  { simpl in *. lia. }
  exists (a :: s). split_and!.
  - by rewrite <- app_assoc.
  - by rewrite Hp', Hs.
  - apply SSorted_cons; [done|].
    apply Forall_forall. intros y Hy.
    apply (heap_top_best (a :: t) a Hheap); [done|].
    rewrite Hp'. apply list_elem_of_further. by rewrite <- Hs.
Qed.

Lemma pop_until_empty_spec data :
  heap_inv comp data →
  ∃ s, pop_until_empty comp data = (s, []) ∧
       s ≡ₚ data ∧ sorted_best_first comp s.
Proof.
  intros Hheap. unfold pop_until_empty.
  destruct (pop_loop_spec (length data) data [] Hheap) as (s & ? & ? & ?);
    [done|].
  by exists s.
Qed.

End api.

(** ** Sorted permutations are unique up to equivalence *)

Section sorted.
Context {T : Type} {comp : T → T → bool} (valid : StrictWeakOrder comp).
Implicit Types (s : list T).

Lemma length_filter_mono (P Q : T → Prop)
    `{∀ x, Decision (P x)} `{∀ x, Decision (Q x)} s :
  (∀ y, P y → Q y) → length (filter P s) ≤ length (filter Q s).
Proof.
  intros HPQ. induction s as [|a s IH]; [done|]. rewrite !filter_cons.
  destruct (decide (P a)), (decide (Q a)); simpl; try lia.
  exfalso. auto.
Qed.

Lemma filter_none (P : T → Prop) `{∀ x, Decision (P x)} s :
  Forall (λ y, ¬ P y) s → filter P s = [].
Proof.
  induction 1 as [|a s Ha _ IH]; [done|].
  by rewrite filter_cons, decide_False.
Qed.

(** Everything strictly better than the element at position [i] of a
    sorted list stands before it. *)
Lemma sorted_better_count s :
  sorted_best_first comp s → ∀ i x, s !! i = Some x →
  length (filter (λ y, comp x y = true) s) ≤ i.
Proof.
  induction 1 as [|a t Ht IH Hall]; intros i x Hx; [done|].
  rewrite filter_cons. destruct i as [|i]; simpl in Hx.
  - simplify_eq. rewrite decide_False
      by (rewrite (swo_irrefl _ valid); done).
    rewrite filter_none; [done|].
    eapply Forall_impl; [exact Hall|]. unfold not_before. intros y ->. done.
  - specialize (IH i x Hx). destruct (decide _); simpl; lia.
Qed.

(** The elements up to position [i] are all at least as good as the
    element there. *)
Lemma sorted_upto_count s :
  sorted_best_first comp s → ∀ i x, s !! i = Some x →
  i + 1 ≤ length (filter (λ y, comp y x = false) s).
Proof.
  induction 1 as [|a t Ht IH Hall]; intros i x Hx; [done|].
  rewrite filter_cons. destruct i as [|i]; simpl in Hx.
  - simplify_eq. rewrite decide_True by apply (swo_irrefl _ valid).
    simpl. lia.
  - specialize (IH i x Hx).
    rewrite decide_True; [simpl; lia|].
    rewrite Forall_forall in Hall. apply Hall.
    apply list_elem_of_lookup. eauto.
Qed.

Lemma sorted_perm_not_before s1 s2 :
  sorted_best_first comp s1 → sorted_best_first comp s2 → s1 ≡ₚ s2 →
  ∀ i x y, s1 !! i = Some x → s2 !! i = Some y → comp x y = false.
Proof.
  intros H1 H2 Hp i x y Hx Hy. destruct (comp x y) eqn:Hxy; [|done].
  exfalso.
  pose proof (sorted_better_count s1 H1 i x Hx) as Hb.
  pose proof (sorted_upto_count s2 H2 i y Hy) as Hu.
  rewrite <- Hp in Hu.
  pose proof (length_filter_mono
    (λ z, comp z y = false) (λ z, comp x z = true) s1) as Hm.
  assert (∀ z, comp z y = false → comp x z = true) as Himp.
  { intros z Hzy. destruct (comp x z) eqn:Hxz; [done|].
    pose proof (swo_neg_trans valid x z y Hxz Hzy). congruence. }
  specialize (Hm Himp). lia.
Qed.

(** Two best-first arrangements of the same elements agree position by
    position, up to equivalence under the comparator. *)
Lemma sorted_perm_equiv s1 s2 :
  sorted_best_first comp s1 → sorted_best_first comp s2 → s1 ≡ₚ s2 →
  Forall2 (equiv_under comp) s1 s2.
Proof.
  intros H1 H2 Hp.
  apply Forall2_same_length_lookup_2; [by apply Permutation_length|].
  intros i x y Hx Hy. split.
  - by apply (sorted_perm_not_before s1 s2 H1 H2 Hp i).
  - by apply (sorted_perm_not_before s2 s1 H2 H1 (symmetry Hp) i).
Qed.

Lemma sorted_rev s :
  sorted_best_first comp s → sorted_best_first (inverted comp) (rev s).
Proof.
  induction 1 as [|a t Ht IH Hall]; simpl; [constructor|].
  apply StronglySorted_app_2; [|done|repeat constructor].
  intros x1 x2 Hx1 ->%list_elem_of_singleton.
  rewrite Forall_forall in Hall. apply Hall.
  apply list_elem_of_In, in_rev. by apply list_elem_of_In.
Qed.

Lemma reference_sort_spec data :
  sorted_best_first comp (reference_sort comp data) ∧
  reference_sort comp data ≡ₚ data.
Proof.
  split; [|apply merge_sort_Permutation].
  pose proof (not_before_trans valid) as Htrans.
  pose proof (not_before_total valid) as Htotal.
  apply (StronglySorted_merge_sort (not_before comp)); done.
Qed.

End sorted.

Lemma sorted_perm_unique {T} (comp : T → T → bool) s1 s2 :
  StrictTotalOrder comp →
  sorted_best_first comp s1 → sorted_best_first comp s2 → s1 ≡ₚ s2 →
  s1 = s2.
Proof.
  intros Htot H1 H2 Hp.
  apply (StronglySorted_unique_strong (not_before comp)); try done.
  intros x1 x2 _ _ Hx Hy. by apply (sto_eq comp Htot).
Qed.

Lemma inverted_total {T} (comp : T → T → bool) :
  StrictTotalOrder comp → StrictTotalOrder (inverted comp).
Proof.
  intros [Hv He]. split; [by apply inverted_valid|].
  unfold inverted. intros a b H1 H2. by apply He.
Qed.

(** ** Comparators on integers and pairs *)

Lemma Z_ltb_valid : StrictWeakOrder Z.ltb.
Proof.
  split.
  - intros a. apply Z.ltb_irrefl.
  - intros a b c. rewrite !Z.ltb_lt. lia.
  - unfold equiv_under. intros a b c. rewrite !Z.ltb_ge. lia.
Qed.

Lemma Z_ltb_total : StrictTotalOrder Z.ltb.
Proof.
  split; [apply Z_ltb_valid|]. intros a b. rewrite !Z.ltb_ge. lia.
Qed.

Lemma Z_greater_inverted (a b : Z) : greater a b = inverted less a b.
Proof. apply Z.gtb_ltb. Qed.

Lemma by_first_valid : StrictWeakOrder by_first.
Proof.
  unfold by_first. split.
  - intros a. apply Z.ltb_irrefl.
  - intros a b c. rewrite !Z.ltb_lt. lia.
  - unfold equiv_under. intros a b c. rewrite !Z.ltb_ge. lia.
Qed.

(** ** Heapifying a heap, when equivalent elements are equal *)

Lemma desc_child_toward i h :
  desc i h → i ≠ h → ∃ c, edge i c ∧ desc c h.
Proof.
  induction 1 as [|h c Hd IH He]; [done|]. intros _.
  destruct (decide (i = h)) as [->|Hne].
  - exists c. split; [done|constructor].
  - destruct (IH Hne) as (c' & He' & Hd'). exists c'. split; [done|].
    by apply desc_step with h.
Qed.

Lemma desc_or_not p h : desc p h ∨ ¬ desc p h.
Proof.
  induction h as [h IH] using lt_wf_ind.
  destruct (decide (h = p)) as [->|Hne]; [left; constructor|].
  destruct (decide (h = 0)) as [->|Hpos].
  { right. intros Hd%desc_ge. lia. }
  destruct (IH ((h - 1) / 2)) as [Hd|Hd]; [lia| |].
  - left. apply desc_step with ((h - 1) / 2); [done|apply parent_edge; lia].
  - right. intros Hd'. by destruct (desc_parent p h Hd' Hne).
Qed.

Section idempotence.
Context {T : Type} {comp : T → T → bool} (total : StrictTotalOrder comp).
Implicit Types (l : list T) (v : T).

Local Abbreviation valid := (sto_swo comp total).

(** In a heap an element is not ordered before any element of its
    subtree. *)
Lemma heap_path p len l i j :
  heap_from comp p len l → p ≤ i → desc i j → j < len → ok comp l i j.
Proof.
  intros Hheap Hpi Hd. induction Hd as [|h c Hd IH He]; intros Hj x y Hx Hy.
  { assert (y = x) as -> by congruence. apply (swo_irrefl _ valid). }
  pose proof (edge_parent _ _ He) as [_ Hhc].
  pose proof (desc_ge _ _ Hd) as Hih.
  pose proof (lookup_lt_Some _ _ _ Hy) as Hc.
  destruct (lookup_lt_is_Some_2 l h) as [z Hz]; [lia|].
  apply (swo_neg_trans valid _ z).
  - apply IH; [lia|done..].
  - apply (Hheap h c); first [done|lia].
Qed.

Lemma restoring_start p l : restoring p l l p.
Proof.
  split; [|done]. intros i H1 H2 Hne.
  apply desc_ge in H1, H2. lia.
Qed.

Lemma restoring_descend p l l' h c xc :
  restoring p l l' h → desc p h → edge h c → h < length l' →
  l' !! c = Some xc →
  restoring p l (<[h := xc]> l') c.
Proof.
  intros [R1 R2] Hd He Hh Hxc.
  pose proof (edge_parent _ _ He) as [Hpar Hhc].
  assert (l !! c = Some xc) as Hlc.
  { rewrite <- R2; [done|lia|]. intros [_ Hch%desc_ge]. lia. }
  split.
  - intros i Hpi Hic Hne. destruct (decide (i = c)) as [->|Hne'].
    + rewrite Hpar, Hlc. by apply list_lookup_insert_eq.
    + destruct (desc_parent i c Hic) as [Hih _]; [done|].
      rewrite Hpar in Hih. pose proof (desc_ge _ _ Hih).
      pose proof (desc_ge _ _ Hpi).
      rewrite list_lookup_insert_ne by lia. by apply R1.
  - intros i Hne Hoff.
    assert (i ≠ h) as Hne'.
    { intros ->. apply Hoff. split; [done|].
      apply desc_step with h; [constructor|done]. }
    rewrite list_lookup_insert_ne by done. apply R2; [done|].
    intros [Hpi Hih]. apply Hoff. split; [done|].
    by apply desc_step with h.
Qed.

Lemma restoring_ascend p l l' h x :
  restoring p l l' h → desc p h → h ≠ p → h < length l' →
  l' !! ((h - 1) / 2) = Some x →
  restoring p l (<[h := x]> l') ((h - 1) / 2).
Proof.
  intros [R1 R2] Hd Hne Hh Hx.
  destruct (desc_parent p h Hd Hne) as [Hdp He].
  pose proof (edge_parent _ _ He) as [_ Hlt].
  assert (l !! h = Some x) as Hlh.
  { rewrite <- Hx. symmetry. apply R1; [done|constructor|done]. }
  split.
  - intros i Hpi Hip Hnp.
    pose proof (desc_ge _ _ Hip). pose proof (desc_ge _ _ Hpi).
    rewrite list_lookup_insert_ne by lia.
    apply R1; [done| |done]. by apply desc_step with ((h - 1) / 2).
  - intros i Hnpar Hoff. destruct (decide (i = h)) as [->|Hnh].
    + rewrite Hlh. by apply list_lookup_insert_eq.
    + rewrite list_lookup_insert_ne by done. apply R2; [done|].
      intros [Hpi Hih]. apply Hoff. split; [done|].
      by destruct (desc_parent i h Hih).
Qed.

(** When the climb stops, storing [v] in the hole gives [l] back. *)
Lemma restoring_plug p len l l' h v :
  heap_from comp p len l → l !! p = Some v →
  h < len → len ≤ length l → length l' = length l →
  desc p h → restoring p l l' h →
  (h ≠ p → ∃ x, l' !! ((h - 1) / 2) = Some x ∧ comp x v = false) →
  <[h := v]> l' = l.
Proof.
  intros Hheap Hv Hh Hlen Hl' Hd [R1 R2] Hexit.
  pose proof (desc_ge _ _ Hd) as Hph.
  assert (l !! h = Some v) as Hlh.
  { destruct (decide (h = p)) as [->|Hne]; [done|].
    destruct (Hexit Hne) as (x & Hx & Hxv).
    rewrite R1 in Hx; [|done|constructor|done]. rewrite Hx. f_equal.
    apply (sto_eq comp total); [done|].
    by apply (heap_path p len l p h). }
  apply list_eq. intros i.
  destruct (decide (i = h)) as [->|Hne].
  { rewrite Hlh. apply list_lookup_insert_eq. lia. }
  rewrite list_lookup_insert_ne by done.
  destruct (desc_or_not p i) as [Hpi|Hpi]; [|apply R2; tauto].
  destruct (desc_or_not i h) as [Hih|Hih]; [|apply R2; tauto].
  destruct (desc_child_toward i h Hih Hne) as (c & He & Hch).
  pose proof (edge_parent _ _ He) as [Hpar Hic].
  pose proof (desc_ge _ _ Hpi) as Hpi'.
  pose proof (desc_ge _ _ Hch) as Hch'.
  rewrite <- Hpar, R1; [|by apply desc_step with i|done|lia].
  destruct (lookup_lt_is_Some_2 l c) as [w Hw]; [lia|].
  destruct (lookup_lt_is_Some_2 l i) as [z Hz]; [lia|].
  rewrite Hpar, Hw, Hz. f_equal. apply (sto_eq comp total).
  - apply (swo_neg_trans valid _ v).
    + by apply (heap_path p len l c h); first [done|lia].
    + by apply (heap_path p len l p i); first [done|lia].
  - apply (Hheap i c); first [done|lia].
Qed.

(** The descent of [__adjust_heap] keeps the state [restoring]. *)
Lemma adjust_heap_loop_restoring p len l fuel : ∀ l' h,
  h < len → len ≤ length l → length l' = length l → desc p h →
  restoring p l l' h →
  ∃ l1 h1,
    std.adjust_heap_loop fuel comp l' h h len = (l1, h1, h1) ∧
    h1 < len ∧ length l1 = length l ∧ desc p h1 ∧ restoring p l l1 h1.
Proof.
  induction fuel as [|fuel IH]; intros l' h Hh Hlen Hl' Hd HR; simpl.
  { by exists l', h. }
  destruct (h <? (len - 1) / 2) eqn:Hlt; [|by exists l', h].
  apply Nat.ltb_lt in Hlt.
  destruct (lookup_lt_is_Some_2 l' (2 * (h + 1))) as [r Hr]; [lia|].
  destruct (lookup_lt_is_Some_2 l' (2 * (h + 1) - 1)) as [x Hx]; [lia|].
  rewrite Hr, Hx.
  destruct (comp r x).
  - apply IH; [lia|done|by rewrite length_insert| |].
    + apply desc_step with h; [done|unfold edge; lia].
    + apply restoring_descend; [done..|unfold edge; lia|lia|done].
  - apply IH; [lia|done|by rewrite length_insert| |].
    + apply desc_step with h; [done|unfold edge; lia].
    + apply restoring_descend; [done..|unfold edge; lia|lia|done].
Qed.

(** The climb of [__push_heap] keeps the state [restoring], and stops at
    the top or below a slot not ordered before [v]. *)
Lemma push_heap_loop_restoring p len l v fuel : ∀ l' h,
  h ≤ fuel → h < len → len ≤ length l → length l' = length l →
  desc p h → restoring p l l' h →
  ∃ l1 h1,
    std.push_heap_loop fuel comp l' h p v = (l1, h1) ∧
    h1 < len ∧ length l1 = length l ∧ desc p h1 ∧ restoring p l l1 h1 ∧
    (h1 ≠ p → ∃ x, l1 !! ((h1 - 1) / 2) = Some x ∧ comp x v = false).
Proof.
  induction fuel as [|fuel IH]; intros l' h Hfuel Hh Hlen Hl' Hd HR; simpl.
  { exists l', h. split_and!; try done.
    pose proof (desc_ge _ _ Hd). lia. }
  pose proof (desc_ge _ _ Hd) as Hph.
  destruct (p <? h) eqn:Hlt.
  2:{ apply Nat.ltb_ge in Hlt. exists l', h. split_and!; try done. lia. }
  apply Nat.ltb_lt in Hlt.
  destruct (desc_parent p h Hd) as [Hdp He]; [lia|].
  pose proof (edge_parent _ _ He) as [_ Hparlt].
  destruct (lookup_lt_is_Some_2 l' ((h - 1) / 2)) as [x Hx]; [lia|].
  rewrite Hx. destruct (comp x v) eqn:Hxv.
  - apply IH; [lia|lia|done|by rewrite length_insert|done|].
    apply restoring_ascend; [done|done|lia|lia|done].
  - exists l', h. split_and!; try done. intros _. by exists x.
Qed.

(** On a heap, [__adjust_heap] with the value of the top puts every
    element back where it was. *)
Lemma __adjust_heap_id p len l v :
  heap_from comp p len l → p < len → len ≤ length l → l !! p = Some v →
  std.__adjust_heap comp l p len v = l.
Proof.
  intros Hheap Hp Hlen Hv. unfold std.__adjust_heap.
  destruct (adjust_heap_loop_restoring p len l len l p)
    as (l1 & h1 & -> & Hh1 & Hl1 & Hd1 & HR1);
    [done..|constructor|apply restoring_start|].
  pose proof (desc_ge _ _ Hd1) as Hph1.
  assert (∃ l2 h2,
    (if std.low_bit_clear len && (h1 =? (len - 2) / 2)
     then match l1 !! (2 * (h1 + 1) - 1) with
          | Some x => (<[h1 := x]> l1, 2 * (h1 + 1) - 1)
          | None => (l1, h1)
          end
     else (l1, h1)) = (l2, h2) ∧
    h2 < len ∧ length l2 = length l ∧ desc p h2 ∧ restoring p l l2 h2)
    as (l2 & h2 & -> & Hh2 & Hl2 & Hd2 & HR2).
  { destruct (_ && _) eqn:Hone; [|by exists l1, h1].
    apply andb_true_iff in Hone as [Hev Heq].
    apply low_bit_clear_true in Hev. apply Nat.eqb_eq in Heq.
    destruct (lookup_lt_is_Some_2 l1 (2 * (h1 + 1) - 1)) as [x Hx]; [lia|].
    rewrite Hx. eexists _, _. split; [done|]. split_and!.
    - lia.
    - by rewrite length_insert.
    - apply desc_step with h1; [done|unfold edge; lia].
    - apply restoring_descend; [done..|unfold edge; lia|lia|done]. }
  unfold std.__push_heap.
  destruct (push_heap_loop_restoring p len l v h2 l2 h2)
    as (l3 & h3 & -> & Hh3 & Hl3 & Hd3 & HR3 & Hexit); [done..|].
  by apply (restoring_plug p len l l3 h3 v).
Qed.

Lemma make_heap_loop_id len l : ∀ parent,
  heap_from comp 0 len l → parent < len → len ≤ length l →
  std.make_heap_loop comp l parent len = l.
Proof.
  induction parent as [|parent IH]; intros Hheap Hp Hlen; simpl.
  - destruct (lookup_lt_is_Some_2 l 0) as [value Hv]; [lia|].
    rewrite Hv. by apply __adjust_heap_id.
  - destruct (lookup_lt_is_Some_2 l (S parent)) as [value Hv]; [lia|].
    rewrite Hv, __adjust_heap_id; try done.
    + apply IH; [done|lia|done].
    + intros j i He _ Hi. apply Hheap; first [done|lia].
Qed.

Lemma make_heap_id l : heap_inv comp l → std.make_heap comp l = l.
Proof.
  intros Hheap. unfold std.make_heap.
  destruct (length l <? 2) eqn:Hlt; [done|]. apply Nat.ltb_ge in Hlt.
  apply make_heap_loop_id; [done|lia|done].
Qed.

End idempotence.

(** ** The properties of the specification *)

(** C1. Full-drain ordering.  For every valid comparator and every input,
    heapifying and then popping until the vector is empty empties the
    vector and emits all the elements of the input, sorted best-to-worst
    under the comparator.  The emitted sequence agrees with the reference
    full sort of the input position by position up to equivalence under
    the comparator, and is equal to it when equivalent elements are equal.
    In particular, [3,1,4,1,5,9,2] with the default comparator pops as
    [9,5,4,3,2,1,1]. *)
Theorem full_drain_sorted :
  (∀ (T : Type) (comp : T → T → bool), StrictWeakOrder comp →
   ∀ data : list T,
     ∃ s, pop_until_empty comp (heapify comp data) = (s, []) ∧
          s ≡ₚ data ∧ sorted_best_first comp s ∧
          Forall2 (equiv_under comp) s (reference_sort comp data) ∧
          (StrictTotalOrder comp → s = reference_sort comp data)) ∧
  pop_until_empty less (heapify less [3; 1; 4; 1; 5; 9; 2]%Z)
  = ([9; 5; 4; 3; 2; 1; 1]%Z, []).
Proof.
  split; [|by vm_compute].
  intros T comp valid data.
  destruct (heapify_spec valid data) as [Hheap Hperm].
  destruct (pop_until_empty_spec valid _ Hheap) as (s & Hrun & Hs & Hsorted).
  destruct (reference_sort_spec valid data) as [Hrs Hrp].
  exists s. split_and!; try done.
  - by rewrite Hs.
  - apply (sorted_perm_equiv valid); [done..|]. by rewrite Hs, Hperm, Hrp.
  - intros Htot. apply (sorted_perm_unique comp); [done..|].
    by rewrite Hs, Hperm, Hrp.
Qed.

Lemma full_drain_sorted_witness :
  StrictWeakOrder Z.ltb ∧
  pop_until_empty Z.ltb (heapify Z.ltb [2; 7; 1; 8; 2]%Z)
  = ([8; 7; 2; 2; 1]%Z, []).
Proof.
  split; [exact Z_ltb_valid|].
  destruct (proj1 full_drain_sorted Z Z.ltb Z_ltb_valid [2; 7; 1; 8; 2]%Z)
    as (s & Hrun & _ & _ & _ & Heq).
  rewrite Hrun, (Heq Z_ltb_total). reflexivity.
Defined.

(** C2. Top-k.  For every input, count and comparator, [top_k] returns the
    empty sequence, and no error, when [k] is 0 or the input is empty.
    Otherwise it returns exactly [min k n] elements: the ones that [min k n]
    consecutive pops extract from the heapified copy of the input, in pop
    order. *)
Theorem top_k_is_k_pops {T : Type} (comp : T → T → bool) (data : list T)
    (k : nat) :
  (k = 0 ∨ data = [] → top_k comp data k = inr []) ∧
  (k ≠ 0 → data ≠ [] →
   ∃ out, top_k comp data k = inr out ∧
          length out = k `min` length data ∧
          pop_n (k `min` length data) comp (heapify comp data) = inr out).
Proof.
  rewrite top_k_unfold. split.
  - intros [-> | ->]; [done|]. simpl. by rewrite orb_true_r.
  - intros Hk Hd.
    assert ((k =? 0) || (length data =? 0) = false) as ->.
    { apply orb_false_iff. rewrite !Nat.eqb_neq. split; [done|].
      by destruct data. }
    destruct (pop_n_ok comp (k `min` length data) (heapify comp data))
      as (out & Hout & Hlen).
    { unfold heapify. rewrite make_heap_length. lia. }
    by exists out.
Qed.

Lemma top_k_is_k_pops_witness :
  top_k Z.ltb [] 2 = inr [] ∧
  ∃ out, top_k Z.ltb [7; 1; 9]%Z 2 = inr out ∧ length out = 2 ∧
         pop_n 2 Z.ltb (heapify Z.ltb [7; 1; 9]%Z) = inr out.
Proof.
  split.
  - apply (proj1 (top_k_is_k_pops Z.ltb [] 2)). by right.
  - apply (proj2 (top_k_is_k_pops Z.ltb [7; 1; 9]%Z 2)); done.
Defined.

(** C3, as the code has it.  Under a valid comparator [is_heap] holds after
    [heapify] on any sequence, after [heap_push] on a sequence that already
    satisfies the heap invariant, and after [heap_pop] on a non-empty
    sequence that already satisfies it. *)
Theorem invariant_preserved {T : Type} (comp : T → T → bool)
    (valid : StrictWeakOrder comp) (data : list T) :
  is_heap comp (heapify comp data) = true ∧
  (∀ value, is_heap comp data = true →
            is_heap comp (heap_push comp data value) = true) ∧
  (data ≠ [] → is_heap comp data = true →
   is_heap comp (heap_pop comp data).2 = true).
Proof.
  unfold is_heap. split_and!.
  - apply is_heap_spec, (heapify_spec valid).
  - intros value Hheap%is_heap_spec. by apply is_heap_spec, heap_push_spec.
  - intros Hne Hheap%is_heap_spec. apply is_heap_spec.
    destruct data as [|top t]; [done|].
    destruct (heap_pop_spec valid (top :: t) top Hheap)
      as (data' & -> & Hh & _); done.
Qed.

Lemma invariant_preserved_witness :
  StrictWeakOrder Z.ltb ∧
  is_heap Z.ltb (heapify Z.ltb [3; 1; 4; 1; 5; 9; 2]%Z) = true ∧
  is_heap Z.ltb (heap_push Z.ltb [9; 5; 4]%Z 7%Z) = true ∧
  is_heap Z.ltb (heap_pop Z.ltb [9; 5; 4]%Z).2 = true.
Proof.
  split; [exact Z_ltb_valid|].
  destruct (invariant_preserved Z.ltb Z_ltb_valid [3; 1; 4; 1; 5; 9; 2]%Z)
    as (H1 & _ & _).
  destruct (invariant_preserved Z.ltb Z_ltb_valid [9; 5; 4]%Z)
    as (_ & H2 & H3).
  split_and!; [exact H1|by apply H2|by apply H3].
Defined.

(** C3 as stated fails for [heap_push]: pushing 0 onto [1,2,3], which is
    not a heap under [<], leaves [1,2,3,0], which is not a heap either. *)
Lemma heap_push_keeps_a_broken_heap :
  StrictWeakOrder (less (T := Z)) ∧
  heap_push less [1; 2; 3]%Z 0%Z = [1; 2; 3; 0]%Z ∧
  is_heap less (heap_push less [1; 2; 3]%Z 0%Z) = false.
Proof. split; [exact Z_ltb_valid|]. by vm_compute. Qed.

(** C4. [heap_top] and [heap_pop] on a vector with no elements signal the
    error, and [heap_pop] leaves the vector as it was, empty: the test for
    emptiness comes before [std::pop_heap] and [pop_back]. *)
Theorem empty_heap_errors {T : Type} (comp : T → T → bool) :
  heap_top (@nil T)
  = inl (RuntimeError "heap_utils: heap_top() on empty heap") ∧
  heap_pop comp (@nil T)
  = (inl (RuntimeError "heap_utils: heap_pop() on empty heap"), []).
Proof. done. Qed.

(** C5. No operation but [heap_top] and [heap_pop] signals an error.
    [top_k], [largest_k] and [smallest_k] return a sequence for every input,
    count and comparator: each pop of the loop of [top_k] finds the vector
    non-empty.  [heapify], [heap_push] and [is_heap] have no error to
    signal, and their loops end within the bound of the model: more
    iterations allowed never change a result. *)
Theorem only_top_and_pop_fail {T : Type} `{Ordered T}
    (comp : T → T → bool) (data : list T) (k : nat) :
  (∃ out, top_k comp data k = inr out) ∧
  (∃ out, largest_k data k = inr out) ∧
  (∃ out, smallest_k data k = inr out) ∧
  (∀ j, j < k `min` length data →
     (top_k_loop j comp (heapify comp data) []).2 ≠ [] ∧
     ∃ x, (heap_pop comp (top_k_loop j comp (heapify comp data) []).2).1
          = inr x) ∧
  (∀ fuel l h p v, h ≤ fuel →
     std.push_heap_loop fuel comp l h p v
     = std.push_heap_loop h comp l h p v) ∧
  (∀ fuel l h len, len ≤ fuel →
     std.adjust_heap_loop fuel comp l h h len
     = std.adjust_heap_loop len comp l h h len) ∧
  (∀ fuel l n, n ≤ fuel →
     std.is_heap_until_loop fuel comp l 0 1 n
     = std.is_heap_until_loop n comp l 0 1 n).
Proof.
  split_and!.
  - destruct (top_k_ok comp data k) as (out & ? & _). by exists out.
  - destruct (top_k_ok less data k) as (out & ? & _). by exists out.
  - destruct (top_k_ok greater data k) as (out & ? & _). by exists out.
  - intros j Hj.
    assert (length (top_k_loop j comp (heapify comp data) []).2 ≠ 0) as Hlen.
    { rewrite top_k_loop_length; unfold heapify; rewrite make_heap_length;
        lia. }
    assert ((top_k_loop j comp (heapify comp data) []).2 ≠ []) as Hne.
    { intros E. by rewrite E in Hlen. }
    split; [done|].
    destruct (heap_pop_nonempty comp _ Hne) as (x & -> & _). by exists x.
  - intros. apply push_heap_loop_fuel; lia.
  - intros. apply adjust_heap_loop_fuel; lia.
  - intros. apply is_heap_until_loop_fuel; lia.
Qed.

Lemma only_top_and_pop_fail_witness :
  (∃ out, top_k Z.ltb [7; 1; 9]%Z 5 = inr out) ∧
  (top_k_loop 2 Z.ltb (heapify Z.ltb [7; 1; 9]%Z) []).2 ≠ [] ∧
  std.push_heap_loop 9 Z.ltb [9; 5; 4; 7]%Z 3 0 7%Z
  = std.push_heap_loop 3 Z.ltb [9; 5; 4; 7]%Z 3 0 7%Z.
Proof.
  destruct (only_top_and_pop_fail Z.ltb [7; 1; 9]%Z 5)
    as (H1 & _ & _ & H2 & H3 & _).
  split_and!.
  - exact H1.
  - apply (H2 2). simpl. lia.
  - apply H3. lia.
Defined.

(** C6. [largest_k] is [top_k] with the comparator [<] and [smallest_k] is
    [top_k] with the comparator [>], which exchanges the arguments of [<];
    nothing else is computed.  On [7,1,9,2,8,3,6,4,5], [largest_k] with
    [k = 3] gives [9,8,7] and [smallest_k] with [k = 4] gives [1,2,3,4]. *)
Theorem largest_smallest_are_top_k :
  (∀ (T : Type) (O : Ordered T) (data : list T) (k : nat),
     largest_k data k = top_k less data k ∧
     smallest_k data k = top_k greater data k) ∧
  (∀ a b : Z, greater a b = inverted less a b) ∧
  largest_k [7; 1; 9; 2; 8; 3; 6; 4; 5]%Z 3 = inr [9; 8; 7]%Z ∧
  smallest_k [7; 1; 9; 2; 8; 3; 6; 4; 5]%Z 4 = inr [1; 2; 3; 4]%Z.
Proof.
  split_and!; [done|apply Z_greater_inverted|by vm_compute..].
Qed.

(** With equivalent but distinct elements the two drains are still reverses
    of each other up to equivalence, and no more: the order among such
    elements is left open. *)
Lemma inverted_drain_equiv {T : Type} (comp : T → T → bool)
    (valid : StrictWeakOrder comp) (data : list T) :
  Forall2 (equiv_under (inverted comp))
    (pop_until_empty (inverted comp) (heapify (inverted comp) data)).1
    (rev (pop_until_empty comp (heapify comp data)).1).
Proof.
  pose proof (inverted_valid valid) as valid'.
  destruct (heapify_spec valid data) as [Hheap Hperm].
  destruct (pop_until_empty_spec valid _ Hheap) as (s & -> & Hs & Hsorted).
  destruct (heapify_spec valid' data) as [Hheap' Hperm'].
  destruct (pop_until_empty_spec valid' _ Hheap')
    as (s' & -> & Hs' & Hsorted').
  simpl. apply (sorted_perm_equiv valid'); [done|by apply sorted_rev|].
  rewrite Hs', Hperm', <- Hperm, <- Hs. apply Permutation_rev.
Qed.

(** C7, as the code has it.  Comparator inversion.  For any input and any
    valid comparator, heapifying and draining with the inverted comparator
    yields the reverse of what heapifying and draining with the comparator
    itself yields, position by position up to equivalence under the
    comparator.  When equivalent elements are equal (a strict total order,
    such as [<] on integers) it is exactly the reverse. *)
Theorem inverted_comparator_reverses {T : Type} (comp : T → T → bool)
    (valid : StrictWeakOrder comp) (data : list T) :
  Forall2 (equiv_under comp)
    (pop_until_empty (inverted comp) (heapify (inverted comp) data)).1
    (rev (pop_until_empty comp (heapify comp data)).1) ∧
  (StrictTotalOrder comp →
   (pop_until_empty (inverted comp) (heapify (inverted comp) data)).1
   = rev (pop_until_empty comp (heapify comp data)).1).
Proof.
  split.
  - eapply Forall2_impl; [apply (inverted_drain_equiv comp valid data)|].
    intros a b [H1 H2]. by split.
  - intros total. pose proof (inverted_valid valid) as valid'.
    destruct (heapify_spec valid data) as [Hheap Hperm].
    destruct (pop_until_empty_spec valid _ Hheap) as (s & -> & Hs & Hsorted).
    destruct (heapify_spec valid' data) as [Hheap' Hperm'].
    destruct (pop_until_empty_spec valid' _ Hheap')
      as (s' & -> & Hs' & Hsorted').
    simpl. apply (sorted_perm_unique (inverted comp)).
    + by apply inverted_total.
    + done.
    + by apply sorted_rev.
    + rewrite Hs', Hperm', <- Hperm, <- Hs. apply Permutation_rev.
Qed.

Lemma inverted_comparator_reverses_witness :
  StrictWeakOrder Z.ltb ∧
  (pop_until_empty (inverted Z.ltb)
     (heapify (inverted Z.ltb) [3; 1; 4; 1; 5; 9; 2]%Z)).1
  = rev (pop_until_empty Z.ltb (heapify Z.ltb [3; 1; 4; 1; 5; 9; 2]%Z)).1.
Proof.
  split; [exact Z_ltb_valid|].
  apply (proj2 (inverted_comparator_reverses Z.ltb Z_ltb_valid
                  [3; 1; 4; 1; 5; 9; 2]%Z) Z_ltb_total).
Defined.

(** C7 as stated fails: under a comparator that orders pairs by their first
    component, [(1,0)] and [(1,1)] are equivalent, and the comparator and
    its inverse both answer false on them; both drains emit
    [(1,1), (1,0)], which is not its own reverse. *)
Lemma inverted_drain_is_not_the_reverse :
  StrictWeakOrder by_first ∧
  (pop_until_empty by_first (heapify by_first [(1, 0); (1, 1)]%Z)).1
  = [(1, 1); (1, 0)]%Z ∧
  (pop_until_empty (inverted by_first)
     (heapify (inverted by_first) [(1, 0); (1, 1)]%Z)).1
  = [(1, 1); (1, 0)]%Z ∧
  (pop_until_empty (inverted by_first)
     (heapify (inverted by_first) [(1, 0); (1, 1)]%Z)).1
  ≠ rev (pop_until_empty by_first (heapify by_first [(1, 0); (1, 1)]%Z)).1.
Proof. split; [exact by_first_valid|]. by vm_compute. Qed.

(** C9. [top_k], [largest_k] and [smallest_k] leave the caller's vector as
    it was, for every input, count and comparator: the parameter is passed
    by value, and the heapify and the pops act on that copy, which loses
    the elements popped. *)
Theorem top_k_leaves_input {T : Type} `{Ordered T} (comp : T → T → bool)
    (v : list T) (k : nat) :
  (call_top_k comp v k).2 = v ∧
  (call_top_k comp v k).1 = top_k comp v k ∧
  (call_largest_k v k).2 = v ∧ (call_largest_k v k).1 = largest_k v k ∧
  (call_smallest_k v k).2 = v ∧ (call_smallest_k v k).1 = smallest_k v k ∧
  length (top_k_body comp k v).2
  = length v - (if (k =? 0) || (length v =? 0) then 0
                else k `min` length v).
Proof.
  unfold call_largest_k, call_smallest_k, largest_k, smallest_k.
  assert (∀ c, call_top_k c v k = (top_k c v k, v)) as Hcall.
  { intros c. unfold call_top_k, top_k. by destruct (top_k_body c k v). }
  rewrite !Hcall. split_and!; try done.
  unfold top_k_body. destruct (_ || _); simpl; [lia|].
  unfold heapify. rewrite make_heap_length.
  destruct (length v <? k) eqn:Hlt;
    [apply Nat.ltb_lt in Hlt|apply Nat.ltb_ge in Hlt];
    rewrite top_k_loop_length; rewrite ?make_heap_length; lia.
Qed.

(** C10. [heap_top] takes no comparator and does not look at the heap
    invariant: on every non-empty vector it succeeds with the element at
    index 0.  [1,2,3] is not a heap under [<], and its top is 1. *)
Theorem heap_top_is_front :
  (∀ (T : Type) (front : T) (rest : list T),
     (front :: rest) !! 0 = Some front ∧
     heap_top (front :: rest) = inr front) ∧
  is_heap less [1; 2; 3]%Z = false ∧
  heap_top [1; 2; 3]%Z = inr 1%Z.
Proof. split_and!; [done|by vm_compute..]. Qed.

(** C8, as the code has it.  Under a valid comparator both calls of
    [heapify] leave [is_heap] true and the second call only rearranges what
    the first left.  When moreover equivalent elements are equal (a strict
    total order, such as [<] on integers), the second call leaves every
    element in the position the first call left it. *)
Theorem heapify_twice {T : Type} (comp : T → T → bool)
    (valid : StrictWeakOrder comp) (data : list T) :
  is_heap comp (heapify comp data) = true ∧
  is_heap comp (heapify comp (heapify comp data)) = true ∧
  heapify comp (heapify comp data) ≡ₚ heapify comp data ∧
  (StrictTotalOrder comp →
   heapify comp (heapify comp data) = heapify comp data).
Proof.
  unfold is_heap. split_and!.
  - apply is_heap_spec, (heapify_spec valid).
  - apply is_heap_spec, (heapify_spec valid).
  - apply (heapify_spec valid).
  - intros total. apply (make_heap_id total), (heapify_spec valid).
Qed.

Lemma heapify_twice_witness :
  StrictWeakOrder Z.ltb ∧
  is_heap Z.ltb (heapify Z.ltb (heapify Z.ltb [3; 1; 4; 1; 5; 9; 2]%Z))
  = true ∧
  heapify Z.ltb (heapify Z.ltb [3; 1; 4; 1; 5; 9; 2]%Z)
  = heapify Z.ltb [3; 1; 4; 1; 5; 9; 2]%Z.
Proof.
  split; [exact Z_ltb_valid|].
  destruct (heapify_twice Z.ltb Z_ltb_valid [3; 1; 4; 1; 5; 9; 2]%Z)
    as (_ & H2 & _ & H4).
  split; [exact H2|exact (H4 Z_ltb_total)].
Defined.

(** C8 as stated fails: under a comparator that orders pairs by their first
    component, the two elements of [(1,0), (1,1)] are equivalent; the first
    [heapify] exchanges them and the second exchanges them back. *)
Lemma heapify_twice_moves_equivalent_elements :
  StrictWeakOrder by_first ∧
  heapify by_first [(1, 0); (1, 1)]%Z = [(1, 1); (1, 0)]%Z ∧
  heapify by_first (heapify by_first [(1, 0); (1, 1)]%Z)
  = [(1, 0); (1, 1)]%Z ∧
  heapify by_first (heapify by_first [(1, 0); (1, 1)]%Z)
  ≠ heapify by_first [(1, 0); (1, 1)]%Z.
Proof. split; [exact by_first_valid|]. by vm_compute. Qed.

(** ** Further properties of the operations *)

(** *** No comparator can make an element appear or disappear *)

Section permutes.
Context {T : Type} (comp : T → T → bool).
Implicit Types (l data : list T) (v : T).

(** Moving the hole from [h] to [c]: the slot at [h] takes the value at
    [c]. *)
Lemma hole_move_perm l h c xc v :
  h ≠ c → h < length l → l !! c = Some xc →
  <[c := v]> (<[h := xc]> l) ≡ₚ <[h := v]> l.
Proof.
  intros Hne Hh Hxc. rewrite <- (list_insert_insert_eq l h xc v).
  apply Permutation_insert_swap.
  - by apply list_lookup_insert_eq.
  - by rewrite list_lookup_insert_ne.
Qed.

Lemma push_heap_loop_perm p v fuel : ∀ l h,
  h < length l →
  <[(std.push_heap_loop fuel comp l h p v).2 := v]>
    (std.push_heap_loop fuel comp l h p v).1 ≡ₚ <[h := v]> l ∧
  (∀ i, h < i →
     <[(std.push_heap_loop fuel comp l h p v).2 := v]>
       (std.push_heap_loop fuel comp l h p v).1 !! i = l !! i).
Proof.
  induction fuel as [|fuel IH]; intros l h Hh; simpl.
  { split; [done|]. intros i Hi. apply list_lookup_insert_ne. lia. }
  destruct (p <? h) eqn:Hlt; simpl.
  2:{ split; [done|]. intros i Hi. apply list_lookup_insert_ne. lia. }
  apply Nat.ltb_lt in Hlt.
  destruct (l !! ((h - 1) / 2)) as [x|] eqn:Hx; simpl.
  2:{ split; [done|]. intros i Hi. apply list_lookup_insert_ne. lia. }
  destruct (comp x v); simpl.
  2:{ split; [done|]. intros i Hi. apply list_lookup_insert_ne. lia. }
  destruct (IH (<[h := x]> l) ((h - 1) / 2)) as [H1 H2].
  { rewrite length_insert. lia. }
  split.
  - rewrite H1. apply hole_move_perm; [lia|done..].
  - intros i Hi. rewrite H2 by lia. apply list_lookup_insert_ne. lia.
Qed.

Lemma __push_heap_perm l h p v :
  h < length l →
  std.__push_heap comp l h p v ≡ₚ <[h := v]> l ∧
  (∀ i, h < i → std.__push_heap comp l h p v !! i = l !! i).
Proof.
  intros Hh. unfold std.__push_heap.
  pose proof (push_heap_loop_perm p v h l h Hh) as Hspec.
  by destruct (std.push_heap_loop h comp l h p v) as [l1 h1].
Qed.

Lemma adjust_heap_loop_perm len v fuel : ∀ l h,
  h < len → len ≤ length l →
  ∃ l' h',
    std.adjust_heap_loop fuel comp l h h len = (l', h', h') ∧
    h' < len ∧ length l' = length l ∧
    <[h' := v]> l' ≡ₚ <[h := v]> l ∧
    (∀ i, len ≤ i → l' !! i = l !! i).
Proof.
  induction fuel as [|fuel IH]; intros l h Hh Hlen; simpl.
  { by exists l, h. }
  destruct (h <? (len - 1) / 2) eqn:Hlt; [|by exists l, h].
  apply Nat.ltb_lt in Hlt.
  destruct (lookup_lt_is_Some_2 l (2 * (h + 1))) as [r Hr]; [lia|].
  destruct (lookup_lt_is_Some_2 l (2 * (h + 1) - 1)) as [x Hx]; [lia|].
  rewrite Hr, Hx.
  destruct (comp r x).
  - destruct (IH (<[h := x]> l) (2 * (h + 1) - 1))
      as (l' & h' & -> & ? & Hl & Hp & Hf);
      [lia|by rewrite length_insert|].
    exists l', h'. split_and!; try done.
    + by rewrite Hl, length_insert.
    + rewrite Hp. apply hole_move_perm; [lia..|done].
    + intros i Hi. rewrite Hf by done. apply list_lookup_insert_ne. lia.
  - destruct (IH (<[h := r]> l) (2 * (h + 1)))
      as (l' & h' & -> & ? & Hl & Hp & Hf);
      [lia|by rewrite length_insert|].
    exists l', h'. split_and!; try done.
    + by rewrite Hl, length_insert.
    + rewrite Hp. apply hole_move_perm; [lia..|done].
    + intros i Hi. rewrite Hf by done. apply list_lookup_insert_ne. lia.
Qed.

Lemma __adjust_heap_perm l p len v :
  p < len → len ≤ length l →
  std.__adjust_heap comp l p len v ≡ₚ <[p := v]> l ∧
  (∀ i, len ≤ i → std.__adjust_heap comp l p len v !! i = l !! i).
Proof.
  intros Hp Hlen. unfold std.__adjust_heap.
  destruct (adjust_heap_loop_perm len v len l p Hp Hlen)
    as (l1 & h1 & -> & Hh1 & Hl1 & Hp1 & Hf1).
  destruct (std.low_bit_clear len && (h1 =? (len - 2) / 2)) eqn:Hone.
  - apply andb_true_iff in Hone as [Hev Heq].
    apply low_bit_clear_true in Hev. apply Nat.eqb_eq in Heq.
    destruct (lookup_lt_is_Some_2 l1 (2 * (h1 + 1) - 1)) as [x Hx]; [lia|].
    rewrite Hx.
    destruct (__push_heap_perm (<[h1 := x]> l1) (2 * (h1 + 1) - 1) p v)
      as [H1 H2].
    { rewrite length_insert. lia. }
    split.
    + rewrite H1, <- Hp1. apply hole_move_perm; [lia..|done].
    + intros i Hi. rewrite H2, list_lookup_insert_ne by lia. by apply Hf1.
  - destruct (__push_heap_perm l1 h1 p v) as [H1 H2]; [lia|].
    split; [by rewrite H1|].
    intros i Hi. rewrite H2 by lia. by apply Hf1.
Qed.

Lemma make_heap_loop_perm len : ∀ parent l,
  length l = len → parent < len →
  std.make_heap_loop comp l parent len ≡ₚ l.
Proof.
  induction parent as [|parent IH]; intros l Hl Hp; simpl.
  - destruct (lookup_lt_is_Some_2 l 0) as [value Hv]; [lia|]. rewrite Hv.
    destruct (__adjust_heap_perm l 0 len value) as [H1 _]; [lia..|].
    by rewrite H1, (list_insert_id _ _ _ Hv).
  - destruct (lookup_lt_is_Some_2 l (S parent)) as [value Hv]; [lia|].
    rewrite Hv.
    destruct (__adjust_heap_perm l (S parent) len value) as [H1 _]; [lia..|].
    rewrite IH; [|by rewrite __adjust_heap_length|lia].
    by rewrite H1, (list_insert_id _ _ _ Hv).
Qed.

Lemma make_heap_perm l : std.make_heap comp l ≡ₚ l.
Proof.
  unfold std.make_heap. destruct (length l <? 2) eqn:Hlt; [done|].
  apply Nat.ltb_ge in Hlt. apply make_heap_loop_perm; [done|lia].
Qed.

Lemma push_heap_perm l : std.push_heap comp l ≡ₚ l.
Proof.
  unfold std.push_heap. destruct (l !! (length l - 1)) as [v|] eqn:Hv; [|done].
  pose proof (lookup_lt_Some _ _ _ Hv) as Hlt.
  destruct (__push_heap_perm l (length l - 1) 0 v Hlt) as [H1 _].
  by rewrite H1, (list_insert_id _ _ _ Hv).
Qed.

(** [std::pop_heap] puts the first element last, whatever the comparator
    says. *)
Lemma pop_heap_front l top :
  l !! 0 = Some top →
  last (std.pop_heap comp l) = Some top ∧ std.pop_heap comp l ≡ₚ l.
Proof.
  intros Htop. pose proof (pop_heap_length comp l) as Hlen. revert Hlen.
  unfold std.pop_heap, std.__pop_heap.
  destruct (1 <? length l) eqn:Hlt.
  - apply Nat.ltb_lt in Hlt.
    destruct (lookup_lt_is_Some_2 l (length l - 1)) as [value Hv]; [lia|].
    rewrite Hv, Htop. intros Hlen.
    destruct (__adjust_heap_perm (<[length l - 1 := top]> l) 0
                (length l - 1) value) as [H1 H2].
    { lia. }
    { rewrite length_insert. lia. }
    split.
    + rewrite last_lookup, Hlen.
      replace (Init.Nat.pred (length l)) with (length l - 1) by lia.
      rewrite H2 by lia. apply list_lookup_insert_eq. lia.
    + rewrite H1. by apply Permutation_insert_swap.
  - apply Nat.ltb_ge in Hlt. intros _.
    destruct l as [|x [|y l]]; simplify_eq/=; [done|lia].
Qed.

Lemma heap_pop_front data top :
  data !! 0 = Some top →
  ∃ data', heap_pop comp data = (inr top, data') ∧
           data ≡ₚ top :: data' ∧ length data' = length data - 1.
Proof.
  intros Htop. destruct (pop_heap_front data top Htop) as [Hlast Hp].
  destruct (heap_pop_nonempty comp data) as (x & Hrun & Hx & Hlen).
  { by intros ->. }
  assert (x = top) as -> by congruence.
  exists (removelast (std.pop_heap comp data)). split_and!; try done.
  apply last_Some in Hlast as [l' Hl']. rewrite Hl' in Hp |- *.
  rewrite removelast_last, <- Hp. by rewrite Permutation_app_comm.
Qed.

(** While the front is not ordered before the new value, [heap_push] leaves
    the front where it is. *)
Lemma push_heap_loop_keeps_front top v fuel : ∀ l h,
  1 ≤ h → h < length l → l !! 0 = Some top → comp top v = false →
  <[(std.push_heap_loop fuel comp l h 0 v).2 := v]>
    (std.push_heap_loop fuel comp l h 0 v).1 !! 0 = Some top.
Proof.
  induction fuel as [|fuel IH]; intros l h Hh Hlen Htop Hcmp; simpl.
  { by rewrite list_lookup_insert_ne by lia. }
  destruct (0 <? h) eqn:Hlt; simpl;
    [|by rewrite list_lookup_insert_ne by lia].
  destruct (l !! ((h - 1) / 2)) as [x|] eqn:Hx; simpl;
    [|by rewrite list_lookup_insert_ne by lia].
  destruct (comp x v) eqn:Hxv; simpl;
    [|by rewrite list_lookup_insert_ne by lia].
  assert (1 ≤ (h - 1) / 2) as Hpar.
  { destruct (decide ((h - 1) / 2 = 0)) as [E|?]; [|lia].
    rewrite E in Hx. congruence. }
  apply IH; [done|rewrite length_insert; lia| |done].
  by rewrite list_lookup_insert_ne by lia.
Qed.

Lemma heap_push_keeps_front data top v :
  data !! 0 = Some top → comp top v = false →
  heap_push comp data v !! 0 = Some top.
Proof.
  intros Htop Hcmp. unfold heap_push, std.push_heap.
  pose proof (lookup_lt_Some _ _ _ Htop) as Hlen.
  rewrite length_app. simpl.
  replace (length data + 1 - 1) with (length data) by lia.
  rewrite lookup_app_r, Nat.sub_diag by done. simpl.
  unfold std.__push_heap.
  pose proof (push_heap_loop_keeps_front top v (length data)
                (data ++ [v]) (length data)) as Hkeep.
  destruct (std.push_heap_loop _ _ _ _ _ _) as [l1 h1]. apply Hkeep.
  - lia.
  - rewrite length_app. simpl. lia.
  - by rewrite lookup_app_l.
  - done.
Qed.

End permutes.

Section pops_any_comparator.
Context {T : Type} (comp : T → T → bool).
Implicit Types (data out : list T).

Lemma heap_top_lookup data x : data !! 0 = Some x → heap_top data = inr x.
Proof. destruct data; intros; by simplify_eq/=. Qed.

Lemma pop_n_perm k : ∀ data,
  k ≤ length data →
  ∃ out rest, pop_n k comp data = inr out ∧ length out = k ∧
              data ≡ₚ out ++ rest.
Proof.
  induction k as [|k IH]; intros data Hk; simpl.
  { by exists [], data. }
  destruct data as [|a t]; [simpl in Hk; lia|].
  destruct (heap_pop_front comp (a :: t) a) as (data' & -> & Hp & Hl);
    [done|].
  destruct (IH data') as (out & rest & -> & Hout & Hperm).
  { simpl in *. lia. }
  exists (a :: out), rest. split_and!; [done|by rewrite <- Hout|].
  by rewrite Hp, Hperm.
Qed.

Lemma pop_n_prefix j : ∀ j' data out',
  j ≤ j' → pop_n j' comp data = inr out' →
  pop_n j comp data = inr (take j out').
Proof.
  induction j as [|j IH]; intros j' data out' Hj Hrun; [done|].
  destruct j' as [|j']; [lia|]. simpl in *.
  destruct (heap_pop comp data) as [[e|x] data1]; [done|].
  destruct (pop_n j' comp data1) as [e|o] eqn:Ho; [done|].
  simplify_eq. by rewrite (IH j' data1 o) by (done || lia).
Qed.

Lemma top_k_perm data k :
  ∃ out rest, top_k comp data k = inr out ∧ data ≡ₚ out ++ rest.
Proof.
  rewrite top_k_unfold. destruct (_ || _); [by exists [], data|].
  destruct (pop_n_perm (k `min` length data) (heapify comp data))
    as (out & rest & Hrun & _ & Hperm).
  { unfold heapify. rewrite make_heap_length. lia. }
  exists out, rest. split; [done|]. rewrite <- Hperm.
  symmetry. apply make_heap_perm.
Qed.

Lemma top_k_prefix data k k' :
  k ≤ k' →
  ∃ out', top_k comp data k' = inr out' ∧
          top_k comp data k = inr (take k out').
Proof.
  intros Hk. rewrite !top_k_unfold.
  destruct (length data =? 0) eqn:Hn.
  { rewrite !orb_true_r. exists []. by rewrite take_nil. }
  apply Nat.eqb_neq in Hn. rewrite !orb_false_r.
  destruct (k' =? 0) eqn:Hk'.
  { apply Nat.eqb_eq in Hk'. assert (k = 0) as -> by lia. subst k'.
    by exists []. }
  destruct (pop_n_ok comp (k' `min` length data) (heapify comp data))
    as (out' & Hrun & Hlen).
  { unfold heapify. rewrite make_heap_length. lia. }
  exists out'. split; [done|].
  destruct (k =? 0) eqn:Hk0.
  { apply Nat.eqb_eq in Hk0. by subst k. }
  apply Nat.eqb_neq in Hk0.
  rewrite (pop_n_prefix (k `min` length data) (k' `min` length data) _ out')
    by (done || lia).
  f_equal. destruct (decide (k ≤ length data)) as [Hle|Hgt].
  - by replace (k `min` length data) with k by lia.
  - rewrite !take_ge; [done|lia..].
Qed.

End pops_any_comparator.

(** *** What the pops of a heap deliver under a valid comparator *)

Section pops.
Context {T : Type} {comp : T → T → bool} (valid : StrictWeakOrder comp).
Implicit Types (data out : list T).

Lemma heap_inv_nil : heap_inv comp (@nil T).
Proof. intros j i _ _ Hi. simpl in Hi. lia. Qed.

Lemma pop_n_spec k : ∀ data,
  heap_inv comp data → k ≤ length data →
  ∃ out rest, pop_n k comp data = inr out ∧ length out = k ∧
              heap_inv comp rest ∧ data ≡ₚ out ++ rest ∧
              sorted_best_first comp out ∧
              (∀ x y, x ∈ out → y ∈ rest → comp x y = false).
Proof.
  induction k as [|k IH]; intros data Hheap Hk; simpl.
  { exists [], data. split_and!; try done; [constructor|].
    intros x y Hx. by apply elem_of_nil in Hx. }
  destruct data as [|a t]; [simpl in Hk; lia|].
  destruct (heap_pop_spec valid (a :: t) a Hheap)
    as (data' & -> & Hh' & Hp' & Hl'); [done|].
  destruct (IH data' Hh') as (out & rest & -> & Hout & Hhr & Hperm & Hs & Hx).
  { simpl in *. lia. }
  assert (∀ y, y ∈ data' → comp a y = false) as Hbest.
  { intros y Hy. apply (heap_top_best valid (a :: t) a Hheap); [done|].
    rewrite Hp'. by apply list_elem_of_further. }
  exists (a :: out), rest. split_and!; try done.
  - by rewrite <- Hout.
  - by rewrite Hp', Hperm.
  - apply SSorted_cons; [done|]. apply Forall_forall. intros y Hy.
    apply Hbest. rewrite Hperm. apply elem_of_app. by left.
  - intros x y [->|Hin]%elem_of_cons Hy; [|by apply Hx].
    apply Hbest. rewrite Hperm. apply elem_of_app. by right.
Qed.

Lemma top_k_spec data k :
  ∃ out rest, top_k comp data k = inr out ∧
              length out = k `min` length data ∧
              data ≡ₚ out ++ rest ∧ sorted_best_first comp out ∧
              (∀ x y, x ∈ out → y ∈ rest → comp x y = false).
Proof.
  rewrite top_k_unfold. destruct (_ || _) eqn:Hguard.
  { exists [], data. split_and!; try done.
    - apply orb_true_iff in Hguard as [E%Nat.eqb_eq|E%Nat.eqb_eq];
        simpl; lia.
    - constructor.
    - intros x y Hx. by apply elem_of_nil in Hx. }
  destruct (heapify_spec valid data) as [Hheap Hperm].
  assert (length (heapify comp data) = length data) as Hlen
    by (unfold heapify; apply make_heap_length).
  destruct (pop_n_spec (k `min` length data) (heapify comp data) Hheap)
    as (out & rest & Hrun & Hout & _ & Hp & Hs & Hx); [lia|].
  exists out, rest. split_and!; try done. by rewrite <- Hp.
Qed.

Lemma pop_n_sorted_prefix data k :
  StrictTotalOrder comp → heap_inv comp data → k ≤ length data →
  pop_n k comp data = inr (take k (reference_sort comp data)).
Proof.
  intros Htot Hheap Hk.
  destruct (pop_n_spec k data Hheap Hk)
    as (out & rest & -> & Hout & _ & Hp & Hs & Hx).
  destruct (reference_sort_spec valid rest) as [Hrs Hrp].
  destruct (reference_sort_spec valid data) as [Hds Hdp].
  assert (out ++ reference_sort comp rest = reference_sort comp data) as <-.
  { apply (sorted_perm_unique comp); [done| |done|].
    - apply StronglySorted_app_2; [|done..].
      intros x y Hx' Hy. apply Hx; [done|]. by rewrite <- Hrp.
    - by rewrite Hrp, Hdp. }
  f_equal. rewrite <- Hout. by rewrite take_app_length.
Qed.

Lemma top_k_sorted_prefix data k :
  StrictTotalOrder comp →
  top_k comp data k = inr (take k (reference_sort comp data)).
Proof.
  intros Htot. rewrite top_k_unfold.
  destruct (reference_sort_spec valid data) as [Hds Hdp].
  destruct (_ || _) eqn:Hguard.
  { apply orb_true_iff in Hguard as [E%Nat.eqb_eq|E%Nat.eqb_eq].
    - by subst k.
    - destruct data; [|done]. apply Permutation_nil_r in Hdp.
      by rewrite Hdp, take_nil. }
  destruct (heapify_spec valid data) as [Hheap Hperm].
  assert (length (heapify comp data) = length data) as Hlen
    by (unfold heapify; apply make_heap_length).
  rewrite pop_n_sorted_prefix; [|done..|lia].
  destruct (reference_sort_spec valid (heapify comp data)) as [Hhs Hhp].
  assert (reference_sort comp (heapify comp data) = reference_sort comp data)
    as ->.
  { apply (sorted_perm_unique comp); [done..|]. by rewrite Hhp, Hperm, Hdp. }
  f_equal. destruct (decide (k ≤ length data)) as [Hle|Hgt].
  - by replace (k `min` length data) with k by lia.
  - apply Permutation_length in Hdp. rewrite !take_ge; [done|lia..].
Qed.

Lemma push_all_spec values :
  heap_inv comp (push_all comp values) ∧ push_all comp values ≡ₚ values.
Proof.
  unfold push_all.
  assert (∀ acc, heap_inv comp acc →
    heap_inv comp (foldl (λ heap value, heap_push comp heap value) acc values)
    ∧ foldl (λ heap value, heap_push comp heap value) acc values
      ≡ₚ acc ++ values) as Hgen.
  { induction values as [|v values IH]; intros acc Hacc; simpl.
    { by rewrite app_nil_r. }
    destruct (heap_push_spec valid acc v Hacc) as [Hh Hp].
    destruct (IH _ Hh) as [H1 H2]. split; [done|].
    rewrite H2, Hp. simpl. apply Permutation_middle. }
  apply (Hgen [] heap_inv_nil).
Qed.

Lemma heap_push_top data top v :
  heap_inv comp data → data !! 0 = Some top →
  heap_push comp data v !! 0 = Some (if comp top v then v else top).
Proof.
  intros Hheap Htop. destruct (comp top v) eqn:Hcmp;
    [|by apply heap_push_keeps_front].
  destruct (heap_push_spec valid data v Hheap) as [Hh Hp].
  destruct (lookup_lt_is_Some_2 (heap_push comp data v) 0) as [r Hr].
  { apply Permutation_length in Hp. rewrite Hp. simpl. lia. }
  rewrite Hr. f_equal.
  assert (r ∈ v :: data) as [->|Hin]%elem_of_cons; [|done|].
  { rewrite <- Hp. apply list_elem_of_lookup. eauto. }
  assert (comp r v = false) as Hrv.
  { apply (heap_top_best valid _ r Hh Hr). rewrite Hp. by left. }
  pose proof (heap_top_best valid data top Hheap Htop r Hin) as Htr.
  pose proof (swo_neg_trans valid top r v Htr Hrv). congruence.
Qed.

End pops.

(** *** Properties read off the header *)

(** X1. [is_heap] is true exactly when at every position but the first the
    parent, at [(i - 1) / 2], is not ordered before the element, for any
    comparator. *)
Theorem is_heap_iff_parents {T : Type} (comp : T → T → bool)
    (data : list T) :
  is_heap comp data = true ↔
  ∀ i x y, 0 < i → data !! ((i - 1) / 2) = Some x → data !! i = Some y →
           comp x y = false.
Proof.
  unfold is_heap. rewrite is_heap_spec. unfold heap_inv, heap_from, ok.
  split.
  - intros Hall i x y Hi Hx Hy.
    apply (Hall ((i - 1) / 2) i); try done; [by apply parent_edge|lia|].
    by apply lookup_lt_Some in Hy.
  - intros Hall j i He _ Hi x y Hx Hy.
    pose proof (edge_parent _ _ He) as [<- Hlt]. apply (Hall i); [lia|done..].
Qed.

Lemma is_heap_iff_parents_witness :
  is_heap Z.ltb [9; 5; 4]%Z = true ∧ (9 <? 5)%Z = false.
Proof.
  split; [reflexivity|].
  apply (proj1 (is_heap_iff_parents Z.ltb [9; 5; 4]%Z) eq_refl 1);
    [lia|reflexivity..].
Defined.

(** X2. [heapify] only rearranges: the vector keeps its length and its
    elements with their multiplicities, whatever the comparator. *)
Theorem heapify_keeps_elements {T : Type} (comp : T → T → bool)
    (data : list T) :
  heapify comp data ≡ₚ data ∧ length (heapify comp data) = length data.
Proof. split; [apply make_heap_perm|apply make_heap_length]. Qed.

(** X3. [heap_push] makes the vector one longer and adds the value to its
    elements, whatever the comparator and whether or not the vector was a
    heap. *)
Theorem heap_push_adds_value {T : Type} (comp : T → T → bool)
    (data : list T) (value : T) :
  heap_push comp data value ≡ₚ value :: data ∧
  length (heap_push comp data value) = S (length data).
Proof.
  unfold heap_push.
  assert (std.push_heap comp (data ++ [value]) ≡ₚ value :: data) as Hp.
  { rewrite push_heap_perm. by rewrite Permutation_app_comm. }
  split; [done|]. by rewrite (Permutation_length Hp).
Qed.

(** X4. On a non-empty vector [heap_pop] returns the element that [heap_top]
    returns, the front, and leaves the other elements in a vector one
    shorter, for any comparator and any arrangement. *)
Theorem heap_pop_takes_front {T : Type} (comp : T → T → bool)
    (data : list T) (front : T) :
  heap_top data = inr front →
  ∃ data', heap_pop comp data = (inr front, data') ∧
           data ≡ₚ front :: data' ∧ length data' = length data - 1.
Proof.
  intros Htop. apply heap_pop_front.
  destruct data; by simplify_eq/=.
Qed.

Lemma heap_pop_takes_front_witness :
  ∃ data', heap_pop Z.ltb [1; 2; 3]%Z = (inr 1%Z, data') ∧
           [1; 2; 3]%Z ≡ₚ 1%Z :: data' ∧ length data' = 2.
Proof. apply (heap_pop_takes_front Z.ltb [1; 2; 3]%Z 1%Z). reflexivity. Defined.

(** X5. After [heapify] under a valid comparator the top of a non-empty
    vector is one of its elements, and it is not ordered before any of
    them: with [<] it is a maximum, with [>] a minimum. *)
Theorem heapify_top_is_best {T : Type} (comp : T → T → bool)
    (valid : StrictWeakOrder comp) (data : list T) :
  data ≠ [] →
  ∃ x, heap_top (heapify comp data) = inr x ∧ x ∈ data ∧
       ∀ y, y ∈ data → comp x y = false.
Proof.
  intros Hne. destruct (heapify_spec valid data) as [Hheap Hperm].
  destruct (lookup_lt_is_Some_2 (heapify comp data) 0) as [x Hx].
  { rewrite (Permutation_length Hperm). destruct data; [done|simpl; lia]. }
  exists x. split_and!.
  - by apply heap_top_lookup.
  - rewrite <- Hperm. apply list_elem_of_lookup. eauto.
  - intros y Hy. apply (heap_top_best valid _ x Hheap Hx). by rewrite Hperm.
Qed.

Lemma heapify_top_is_best_witness :
  ∃ x, heap_top (heapify Z.ltb [3; 1; 4]%Z) = inr x ∧ x ∈ [3; 1; 4]%Z ∧
       ∀ y, y ∈ [3; 1; 4]%Z → (x <? y)%Z = false.
Proof. apply (heapify_top_is_best Z.ltb Z_ltb_valid [3; 1; 4]%Z). done. Defined.

(** X6. Pushing onto a heap under a valid comparator: the new top is the
    pushed value when the old top is ordered before it, and the old top
    otherwise. *)
Theorem heap_push_new_top {T : Type} (comp : T → T → bool)
    (valid : StrictWeakOrder comp) (data : list T) (top value : T) :
  is_heap comp data = true → heap_top data = inr top →
  heap_top (heap_push comp data value)
  = inr (if comp top value then value else top).
Proof.
  intros Hheap%is_heap_spec Htop. apply heap_top_lookup.
  apply (heap_push_top valid); [done|]. destruct data; by simplify_eq/=.
Qed.

Lemma heap_push_new_top_witness :
  heap_top (heap_push Z.ltb [9; 5; 4]%Z 6%Z) = inr 9%Z ∧
  heap_top (heap_push Z.ltb [9; 5; 4]%Z 11%Z) = inr 11%Z.
Proof.
  split.
  - apply (heap_push_new_top Z.ltb Z_ltb_valid [9; 5; 4]%Z 9%Z 6%Z);
      reflexivity.
  - apply (heap_push_new_top Z.ltb Z_ltb_valid [9; 5; 4]%Z 9%Z 11%Z);
      reflexivity.
Defined.

(** X7. Successive pops of a heap never improve: under a valid comparator
    the element of a pop is not ordered before the element of the next
    pop. *)
Theorem pops_never_improve {T : Type} (comp : T → T → bool)
    (valid : StrictWeakOrder comp) (data data1 data2 : list T) (x y : T) :
  is_heap comp data = true →
  heap_pop comp data = (inr x, data1) →
  heap_pop comp data1 = (inr y, data2) →
  comp x y = false.
Proof.
  intros Hheap%is_heap_spec Hpop1 Hpop2.
  destruct data as [|a t]; [done|].
  destruct (heap_pop_spec valid (a :: t) a Hheap)
    as (d1 & Hrun & Hh1 & Hp1 & _); [done|].
  rewrite Hrun in Hpop1. simplify_eq.
  destruct data1 as [|b t1]; [done|].
  destruct (heap_pop_front comp (b :: t1) b) as (d2 & Hrun2 & _); [done|].
  rewrite Hrun2 in Hpop2. simplify_eq.
  apply (heap_top_best valid (x :: t) x Hheap); [done|].
  rewrite Hp1. apply list_elem_of_further. by left.
Qed.

Lemma pops_never_improve_witness : (9 <? 5)%Z = false.
Proof.
  apply (pops_never_improve Z.ltb Z_ltb_valid
           [9; 5; 4]%Z [5; 4]%Z [4]%Z 9%Z 5%Z); reflexivity.
Defined.

(** X8. Draining any vector that is a heap, however it was built, empties
    it and emits its elements best first; under a strict total order the
    pop sequence is the reference sort of the elements. *)
Theorem drain_of_any_heap {T : Type} (comp : T → T → bool)
    (valid : StrictWeakOrder comp) (data : list T) :
  is_heap comp data = true →
  ∃ s, pop_until_empty comp data = (s, []) ∧ s ≡ₚ data ∧
       sorted_best_first comp s ∧
       (StrictTotalOrder comp → s = reference_sort comp data).
Proof.
  intros Hheap%is_heap_spec.
  destruct (pop_until_empty_spec valid data Hheap) as (s & Hrun & Hs & Hsort).
  exists s. split_and!; try done. intros Htot.
  destruct (reference_sort_spec valid data) as [Hrs Hrp].
  apply (sorted_perm_unique comp); [done..|]. by rewrite Hs, Hrp.
Qed.

Lemma drain_of_any_heap_witness :
  ∃ s, pop_until_empty Z.ltb [9; 5; 4; 1]%Z = (s, []) ∧
       s ≡ₚ [9; 5; 4; 1]%Z ∧ sorted_best_first Z.ltb s ∧
       (StrictTotalOrder Z.ltb → s = reference_sort Z.ltb [9; 5; 4; 1]%Z).
Proof.
  apply (drain_of_any_heap Z.ltb Z_ltb_valid [9; 5; 4; 1]%Z). reflexivity.
Defined.

(** X9. A vector filled by [heap_push] alone, from empty, is a heap on the
    values pushed; under a strict total order it pops in the same order as
    the vector that [heapify] makes of those values. *)
Theorem push_all_builds_heap {T : Type} (comp : T → T → bool)
    (valid : StrictWeakOrder comp) (values : list T) :
  is_heap comp (push_all comp values) = true ∧
  push_all comp values ≡ₚ values ∧
  (StrictTotalOrder comp →
   pop_until_empty comp (push_all comp values)
   = pop_until_empty comp (heapify comp values)).
Proof.
  destruct (push_all_spec valid values) as [Hheap Hperm].
  split_and!; [by apply is_heap_spec|done|]. intros Htot.
  destruct (pop_until_empty_spec valid _ Hheap) as (s & -> & Hs & Hsort).
  destruct (heapify_spec valid values) as [Hheap' Hperm'].
  destruct (pop_until_empty_spec valid _ Hheap') as (s' & -> & Hs' & Hsort').
  f_equal. apply (sorted_perm_unique comp); [done..|].
  by rewrite Hs, Hperm, Hs', Hperm'.
Qed.

Lemma push_all_builds_heap_witness :
  is_heap Z.ltb (push_all Z.ltb [3; 10; 5; 1]%Z) = true ∧
  pop_until_empty Z.ltb (push_all Z.ltb [3; 10; 5; 1]%Z)
  = pop_until_empty Z.ltb (heapify Z.ltb [3; 10; 5; 1]%Z).
Proof.
  destruct (push_all_builds_heap Z.ltb Z_ltb_valid [3; 10; 5; 1]%Z)
    as (H1 & _ & H3).
  split; [exact H1|exact (H3 Z_ltb_total)].
Defined.

(** X10. Under a valid comparator [top_k] returns [min k n] elements, best
    first, that together with the elements it leaves out make up the
    input; no returned element is ordered before an element left out. *)
Theorem top_k_takes_the_best {T : Type} (comp : T → T → bool)
    (valid : StrictWeakOrder comp) (data : list T) (k : nat) :
  ∃ out rest, top_k comp data k = inr out ∧
              length out = k `min` length data ∧
              data ≡ₚ out ++ rest ∧ sorted_best_first comp out ∧
              (∀ x y, x ∈ out → y ∈ rest → comp x y = false).
Proof. by apply top_k_spec. Qed.

Lemma top_k_takes_the_best_witness :
  ∃ out rest, top_k Z.gtb [7; 1; 9; 2]%Z 2 = inr out ∧
              length out = 2 ∧ [7; 1; 9; 2]%Z ≡ₚ out ++ rest ∧
              sorted_best_first Z.gtb out ∧
              (∀ x y, x ∈ out → y ∈ rest → (x >? y)%Z = false).
Proof.
  assert (StrictWeakOrder Z.gtb) as valid.
  { split.
    - intros a. rewrite Z.gtb_ltb. apply Z.ltb_irrefl.
    - intros a b c. rewrite !Z.gtb_ltb, !Z.ltb_lt. lia.
    - unfold equiv_under. intros a b c. rewrite !Z.gtb_ltb, !Z.ltb_ge. lia. }
  apply (top_k_takes_the_best Z.gtb valid [7; 1; 9; 2]%Z 2).
Defined.

(** X11. Under a strict total order [top_k] returns the first [k] elements
    of the reference sort of the input, for every input and every [k]. *)
Theorem top_k_is_sorted_prefix {T : Type} (comp : T → T → bool)
    (total : StrictTotalOrder comp) (data : list T) (k : nat) :
  top_k comp data k = inr (take k (reference_sort comp data)).
Proof. by apply (top_k_sorted_prefix (sto_swo comp total)). Qed.

Lemma top_k_is_sorted_prefix_witness :
  largest_k [7; 1; 9; 2; 8]%Z 2
  = inr (take 2 (reference_sort Z.ltb [7; 1; 9; 2; 8]%Z)).
Proof. apply (top_k_is_sorted_prefix Z.ltb Z_ltb_total). Defined.

(** X12. With [k] at least the size of the input and a valid comparator,
    [top_k] returns all the elements, sorted best first. *)
Theorem top_k_of_everything {T : Type} (comp : T → T → bool)
    (valid : StrictWeakOrder comp) (data : list T) (k : nat) :
  length data ≤ k →
  ∃ out, top_k comp data k = inr out ∧ out ≡ₚ data ∧
         sorted_best_first comp out.
Proof.
  intros Hk.
  destruct (top_k_spec valid data k) as (out & rest & Hrun & Hlen & Hp & Hs & _).
  exists out. split_and!; [done| |done].
  pose proof (Permutation_length Hp) as Hl. rewrite length_app in Hl.
  destruct rest; [by rewrite app_nil_r in Hp|simpl in Hl; lia].
Qed.

Lemma top_k_of_everything_witness :
  ∃ out, top_k Z.ltb [7; 1; 9]%Z 100 = inr out ∧ out ≡ₚ [7; 1; 9]%Z ∧
         sorted_best_first Z.ltb out.
Proof.
  apply (top_k_of_everything Z.ltb Z_ltb_valid [7; 1; 9]%Z 100).
  simpl. lia.
Defined.

(** X13. Asking [top_k] for fewer elements gives a prefix of what it gives
    for more, for any comparator. *)
Theorem top_k_smaller_is_prefix {T : Type} (comp : T → T → bool)
    (data : list T) (k k' : nat) :
  k ≤ k' →
  ∃ out', top_k comp data k' = inr out' ∧
          top_k comp data k = inr (take k out').
Proof. apply top_k_prefix. Qed.

Lemma top_k_smaller_is_prefix_witness :
  ∃ out', top_k Z.ltb [7; 1; 9; 2]%Z 3 = inr out' ∧
          top_k Z.ltb [7; 1; 9; 2]%Z 2 = inr (take 2 out').
Proof. apply (top_k_smaller_is_prefix Z.ltb [7; 1; 9; 2]%Z 2 3). lia. Defined.

(** X14. [top_k] returns elements of the input, each at most as often as
    the input has it, even under a comparator that is no ordering. *)
Theorem top_k_returns_input_elements {T : Type} (comp : T → T → bool)
    (data : list T) (k : nat) :
  ∃ out rest, top_k comp data k = inr out ∧ data ≡ₚ out ++ rest.
Proof. apply top_k_perm. Qed.

(** X15. Vectors with fewer than two elements: [heapify] changes nothing
    and [is_heap] is true, for any comparator; and [heap_push] into the
    empty vector gives the one-element vector. *)
Theorem small_vectors {T : Type} (comp : T → T → bool) (data : list T)
    (value : T) :
  (length data < 2 →
   heapify comp data = data ∧ is_heap comp data = true) ∧
  heap_push comp [] value = [value].
Proof.
  split; [|done]. intros Hlen.
  destruct data as [|a [|b t]]; [done..|simpl in Hlen; lia].
Qed.

Lemma small_vectors_witness :
  heapify Z.ltb [5]%Z = [5]%Z ∧ is_heap Z.ltb [5]%Z = true.
Proof. apply (proj1 (small_vectors Z.ltb [5]%Z 0%Z)). simpl. lia. Defined.

(** X16. Under a strict total order [heapify] moves no element of a vector
    that already is a heap. *)
Theorem heapify_fixes_heaps {T : Type} (comp : T → T → bool)
    (total : StrictTotalOrder comp) (data : list T) :
  is_heap comp data = true → heapify comp data = data.
Proof. intros Hheap%is_heap_spec. by apply (make_heap_id total). Qed.

Lemma heapify_fixes_heaps_witness :
  heapify Z.ltb [9; 6; 4; 5; 1; 3; 2; 1]%Z = [9; 6; 4; 5; 1; 3; 2; 1]%Z.
Proof.
  apply (heapify_fixes_heaps Z.ltb Z_ltb_total). reflexivity.
Defined.

(** X17. A push followed by a pop on a heap, under a valid comparator: the
    pop returns an element of the vector with the value added that is
    not ordered before any other, and leaves a heap of the original
    length on the remaining elements. *)
Theorem push_then_pop {T : Type} (comp : T → T → bool)
    (valid : StrictWeakOrder comp) (data : list T) (value : T) :
  is_heap comp data = true →
  ∃ x data', heap_pop comp (heap_push comp data value) = (inr x, data') ∧
             is_heap comp data' = true ∧
             value :: data ≡ₚ x :: data' ∧
             length data' = length data ∧
             (∀ y, y ∈ value :: data → comp x y = false).
Proof.
  intros Hheap%is_heap_spec.
  destruct (heap_push_spec valid data value Hheap) as [Hh Hp].
  destruct (lookup_lt_is_Some_2 (heap_push comp data value) 0) as [x Hx].
  { rewrite (Permutation_length Hp). simpl. lia. }
  destruct (heap_pop_spec valid _ x Hh Hx) as (data' & Hrun & Hh' & Hp' & Hl').
  exists x, data'. split_and!.
  - done.
  - by apply is_heap_spec.
  - by rewrite <- Hp, Hp'.
  - rewrite Hl', (Permutation_length Hp). simpl. lia.
  - intros y Hy. apply (heap_top_best valid _ x Hh Hx). by rewrite Hp.
Qed.

Lemma push_then_pop_witness :
  ∃ x data', heap_pop Z.ltb (heap_push Z.ltb [9; 5; 4]%Z 6%Z)
             = (inr x, data') ∧
             is_heap Z.ltb data' = true ∧
             (6 :: [9; 5; 4])%Z ≡ₚ x :: data' ∧
             length data' = 3 ∧
             (∀ y, y ∈ (6 :: [9; 5; 4])%Z → (x <? y)%Z = false).
Proof.
  apply (push_then_pop Z.ltb Z_ltb_valid [9; 5; 4]%Z 6%Z). reflexivity.
Defined.
